(** * ARA: the Current Reality Tree editor

    A shallow embedding of the graph store of [src/App.tsx], the geometry
    helper and the pointer/keyboard handlers of
    [src/components/CurrentRealityTree.tsx] and the resize handlers of
    [src/components/NodeComponent.tsx], with the properties of the
    specification stated against them.

    Modelling conventions.
    - A TypeScript [number] is a real number ([R]): arithmetic is exact, and
      there is neither NaN nor an infinite value.  The one place where the
      source uses [Infinity] (the running minimum of
      [calculateIntersectionPointWithNodeBoundary]) has its own type [ext].
    - A React state cell is a record field; [setX(prev => f prev)] is the
      setter applied to the current value.  A handler runs against the state
      it was rendered with, and React renders again between two events, so a
      handler is a function from the state before the event to the state
      after it.
    - [generateId()] and [Math.random()] read the clock and a random source;
      the values they return in a call are arguments of the model
      ([Oracle]). *)

From Stdlib Require Import Reals Lra Lia List String Bool.
Import ListNotations.

Local Open Scope R_scope.

(** ** Numbers *)

Definition number : Type := R.

Definition number_eqb (a b : number) : bool :=
  if Req_dec_T a b then true else false.

Definition number_ltb (a b : number) : bool :=
  if Rlt_dec a b then true else false.

(** [Math.sign] *)
Definition Math_sign (a : number) : number :=
  if Rlt_dec 0 a then 1 else if Rlt_dec a 0 then -1 else 0.

(** A running minimum that starts at [Infinity]. *)
Inductive ext : Type :=
| Fin (t : number)
| Infinity.

(** [Math.min(minT, t)] for a finite [t]. *)
Definition ext_min (minT : ext) (t : number) : ext :=
  match minT with
  | Infinity => Fin t
  | Fin m => Fin (Rmin m t)
  end.

(** ** src/constants.ts *)

Definition NODE_WIDTH : number := 200.
Definition NODE_HEIGHT : number := 70.
Definition PORT_SIZE : number := 10.
Definition MIN_NODE_WIDTH : number := 60.
Definition MIN_NODE_HEIGHT : number := 40.

(** ** src/types.ts *)

Inductive NodeType : Type := UDE | CAUSE.

Module Node.
Record t : Type := mk
  { id : string;
    text : string;
    x : number;
    y : number;
    type : NodeType;
    width : number;
    height : number }.
End Node.

Module Edge.
Record t : Type := mk
  { id : string;
    sourceId : string;
    targetId : string }.
End Edge.

Module PendingEdge.
Record t : Type := mk
  { sourceId : string;
    sourceX : number;
    sourceY : number;
    mouseX : number;
    mouseY : number }.
End PendingEdge.

Record Point : Type := mkPoint { px : number; py : number }.

Record Size : Type := mkSize { size_width : number; size_height : number }.

(** What the clock and the random source give to one call: the string
    [generateId()] returns, and the two values of [Math.random()] that
    [addNode] draws for a position that was not supplied. *)
Record Oracle : Type := mkOracle
  { generateId : string;
    random_x : number;
    random_y : number }.

(** ** src/App.tsx: the graph store *)

Module App.

(** The state cells of [App] that the store operations read or write. *)
Record t : Type := mk
  { nodes : list Node.t;
    edges : list Edge.t;
    selectedNodeId : option string;
    aiPanelUserHidden : bool;
    defaultNodeSize : Size }.

Definition setNodes (f : list Node.t -> list Node.t) (s : t) : t :=
  mk (f (nodes s)) (edges s) (selectedNodeId s) (aiPanelUserHidden s)
     (defaultNodeSize s).

Definition setEdges (f : list Edge.t -> list Edge.t) (s : t) : t :=
  mk (nodes s) (f (edges s)) (selectedNodeId s) (aiPanelUserHidden s)
     (defaultNodeSize s).

Definition setSelectedNodeId (v : option string) (s : t) : t :=
  mk (nodes s) (edges s) v (aiPanelUserHidden s) (defaultNodeSize s).

Definition setAiPanelUserHidden (v : bool) (s : t) : t :=
  mk (nodes s) (edges s) (selectedNodeId s) v (defaultNodeSize s).

Definition setDefaultNodeSize (v : Size) (s : t) : t :=
  mk (nodes s) (edges s) (selectedNodeId s) (aiPanelUserHidden s) v.

(** The state of a freshly mounted [App]. *)
Definition initial : t :=
  mk [] [] None false (mkSize NODE_WIDTH NODE_HEIGHT).

Definition placeholder (type : NodeType) : string :=
  match type with
  | UDE => "Novo EI"
  | CAUSE => "Nova Causa"
  end.

(** [text || d] on an optional string: [undefined] and the empty string
    are both falsy. *)
Definition or_default (text : option string) (d : string) : string :=
  match text with
  | None => d
  | Some EmptyString => d
  | Some s => s
  end.

(** [v ?? d]: only [undefined] takes the default. *)
Definition nullish (v : option number) (d : number) : number :=
  match v with
  | None => d
  | Some n => n
  end.

Definition newNode (s : t) (o : Oracle) (type : NodeType)
    (text : option string) (x y : option number) : Node.t :=
  Node.mk (generateId o)
          (or_default text (placeholder type))
          (nullish x (random_x o * 300 + 50))
          (nullish y (random_y o * 200 + 50))
          type
          (size_width (defaultNodeSize s))
          (size_height (defaultNodeSize s)).

(** [addNode] returns the created node and appends it to the list. *)
Definition addNode (s : t) (o : Oracle) (type : NodeType)
    (text : option string) (x y : option number) : Node.t * t :=
  let n := newNode s o type text x y in
  (n, setAiPanelUserHidden false (setNodes (fun prev => prev ++ [n]) s)).

Definition updateNodeText (s : t) (nodeId newText : string) : t :=
  setNodes
    (map (fun n =>
            if (Node.id n =? nodeId)%string
            then Node.mk (Node.id n) newText (Node.x n) (Node.y n)
                         (Node.type n) (Node.width n) (Node.height n)
            else n)) s.

Definition updateNodePosition (s : t) (nodeId : string) (x y : number) : t :=
  setNodes
    (map (fun n =>
            if (Node.id n =? nodeId)%string
            then Node.mk (Node.id n) (Node.text n) x y
                         (Node.type n) (Node.width n) (Node.height n)
            else n)) s.

Definition handleUpdateNodeDimensions (s : t) (nodeId : string)
    (newWidth newHeight : number) : t :=
  setNodes
    (map (fun n =>
            if (Node.id n =? nodeId)%string
            then Node.mk (Node.id n) (Node.text n) (Node.x n) (Node.y n)
                         (Node.type n)
                         (Rmax MIN_NODE_WIDTH newWidth)
                         (Rmax MIN_NODE_HEIGHT newHeight)
            else n)) s.

Definition handleSetDefaultNodeSize (s : t) (newWidth newHeight : number) : t :=
  setDefaultNodeSize
    (mkSize (Rmax MIN_NODE_WIDTH newWidth) (Rmax MIN_NODE_HEIGHT newHeight)) s.

Definition opt_is (v : option string) (k : string) : bool :=
  match v with
  | Some k' => (k' =? k)%string
  | None => false
  end.

Definition deleteNode (s : t) (nodeId : string) : t :=
  let s1 := setNodes (filter (fun n => negb (Node.id n =? nodeId)%string)) s in
  let s2 :=
    setEdges
      (filter (fun e => negb (Edge.sourceId e =? nodeId)%string
                        && negb (Edge.targetId e =? nodeId)%string)) s1 in
  if opt_is (selectedNodeId s) nodeId then setSelectedNodeId None s2 else s2.

(** [edges.some(e => e.sourceId === sourceId && e.targetId === targetId)] *)
Definition has_edge (es : list Edge.t) (sourceId targetId : string) : bool :=
  existsb (fun e => (Edge.sourceId e =? sourceId)%string
                    && (Edge.targetId e =? targetId)%string) es.

Definition addEdge (s : t) (o : Oracle) (sourceId targetId : string) : t :=
  if (sourceId =? targetId)%string || has_edge (edges s) sourceId targetId
  then s
  else
    let newEdge := Edge.mk (generateId o) sourceId targetId in
    setEdges (fun prev => prev ++ [newEdge]) s.

Definition deleteEdge (s : t) (edgeId : string) : t :=
  setEdges (filter (fun e => negb (Edge.id e =? edgeId)%string)) s.

(** The commands of the store, and the store after one of them. *)
Inductive command : Type :=
| AddNode (o : Oracle) (type : NodeType) (text : option string)
          (x y : option number)
| UpdateNodeText (nodeId newText : string)
| UpdateNodePosition (nodeId : string) (x y : number)
| UpdateNodeDimensions (nodeId : string) (newWidth newHeight : number)
| SetDefaultNodeSize (newWidth newHeight : number)
| DeleteNode (nodeId : string)
| AddEdge (o : Oracle) (sourceId targetId : string)
| DeleteEdge (edgeId : string).

Definition exec (s : t) (c : command) : t :=
  match c with
  | AddNode o type text x y => snd (addNode s o type text x y)
  | UpdateNodeText nodeId newText => updateNodeText s nodeId newText
  | UpdateNodePosition nodeId x y => updateNodePosition s nodeId x y
  | UpdateNodeDimensions nodeId w h => handleUpdateNodeDimensions s nodeId w h
  | SetDefaultNodeSize w h => handleSetDefaultNodeSize s w h
  | DeleteNode nodeId => deleteNode s nodeId
  | AddEdge o sourceId targetId => addEdge s o sourceId targetId
  | DeleteEdge edgeId => deleteEdge s edgeId
  end.

(** A node with this id is in the list. *)
Definition node_exists (ns : list Node.t) (k : string) : Prop :=
  exists n, In n ns /\ Node.id n = k.

(** Both endpoints of every edge are ids of nodes of the list. *)
Definition edges_closed (s : t) : Prop :=
  forall e, In e (edges s) ->
    node_exists (nodes s) (Edge.sourceId e)
    /\ node_exists (nodes s) (Edge.targetId e).

(** The ids that a call of [addEdge] names are ids of nodes of the store;
    the other commands name what they like. *)
Definition endpoints_exist (s : t) (c : command) : Prop :=
  match c with
  | AddEdge _ sourceId targetId =>
      node_exists (nodes s) sourceId /\ node_exists (nodes s) targetId
  | _ => True
  end.

(** A sequence of commands, each run on the store the previous one left;
    it is admissible when every [addEdge] in it names nodes of the store it
    runs on. *)
Fixpoint run (s : t) (cs : list command) : t :=
  match cs with
  | [] => s
  | c :: rest => run (exec s c) rest
  end.

Fixpoint admissible (s : t) (cs : list command) : Prop :=
  match cs with
  | [] => True
  | c :: rest => endpoints_exist s c /\ admissible (exec s c) rest
  end.

(** How many edges go from [a] to [b]. *)
Definition count_edges (es : list Edge.t) (a b : string) : nat :=
  List.length (filter (fun e => (Edge.sourceId e =? a)%string
                           && (Edge.targetId e =? b)%string) es).

(** No edge goes from a node to itself, and no two edges go from the same
    node to the same node. *)
Definition simple (s : t) : Prop :=
  (forall e, In e (edges s) -> Edge.sourceId e <> Edge.targetId e)
  /\ (forall a b, (count_edges (edges s) a b <= 1)%nat).

(** The default size and the size of every node are at least the minimum. *)
Definition sizes_ok (s : t) : Prop :=
  MIN_NODE_WIDTH <= size_width (defaultNodeSize s)
  /\ MIN_NODE_HEIGHT <= size_height (defaultNodeSize s)
  /\ forall n, In n (nodes s) ->
       MIN_NODE_WIDTH <= Node.width n /\ MIN_NODE_HEIGHT <= Node.height n.

(** [nodes.find(n => n.id === selectedNodeId)] *)
Definition currentlySelectedNode (s : t) : option Node.t :=
  match selectedNodeId s with
  | Some k => find (fun n => (Node.id n =? k)%string) (nodes s)
  | None => None
  end.

(** [n.y + (n.height || NODE_HEIGHT)]: a height of zero is falsy. *)
Definition bottomOf (n : Node.t) : number :=
  Node.y n + (if number_eqb (Node.height n) 0 then NODE_HEIGHT
              else Node.height n).

(** [nodes.length > 0 ? Math.max(...nodes.map(bottomOf)) : 50] *)
Definition lastNodeY (ns : list Node.t) : number :=
  match map bottomOf ns with
  | [] => 50
  | v :: vs => fold_left Rmax vs v
  end.

(** [addAISuggestionAsCause]: [r] is the value of the [Math.random()] drawn
    for [newX], [o] gives the id of the new node and [o'] the id of the new
    edge; the second component is the list of suggestions after the call. *)
Definition addAISuggestionAsCause (s : t) (aiSuggestions : list string)
    (r : number) (o o' : Oracle) (suggestionText : string)
    : t * list string :=
  let newY := lastNodeY (nodes s) + 30 in
  let newX := r * 300 + 50 in
  let newX :=
    match currentlySelectedNode s with
    | Some selected => Node.x selected
    | None => newX
    end in
  let '(newCauseNode, s1) :=
    addNode s o CAUSE (Some suggestionText) (Some newX) (Some newY) in
  let s2 :=
    match currentlySelectedNode s with
    | Some selected =>
        match Node.type selected with
        | UDE => addEdge s1 o' (Node.id newCauseNode) (Node.id selected)
        | CAUSE => s1
        end
    | None => s1
    end in
  (s2, filter (fun x => negb (x =? suggestionText)%string) aiSuggestions).

End App.


(** ** src/components/CurrentRealityTree.tsx: geometry *)

Definition nodeCenter (node : Node.t) : Point :=
  mkPoint (Node.x node + Node.width node / 2)
          (Node.y node + Node.height node / 2).

Definition calculateIntersectionPointWithNodeBoundary
    (node : Node.t) (targetPoint : Point) : Point :=
  let nodeCenterX := Node.x node + Node.width node / 2 in
  let nodeCenterY := Node.y node + Node.height node / 2 in
  let dx := px targetPoint - nodeCenterX in
  let dy := py targetPoint - nodeCenterY in
  if number_eqb dx 0 && number_eqb dy 0 then
    mkPoint nodeCenterX (Node.y node + Node.height node)
  else
    let minT := Infinity in
    let halfWidth := Node.width node / 2 in
    let halfHeight := Node.height node / 2 in
    let minT :=
      if negb (number_eqb dx 0)
      then ext_min minT (Rabs (halfWidth / dx)) else minT in
    let minT :=
      if negb (number_eqb dy 0)
      then ext_min minT (Rabs (halfHeight / dy)) else minT in
    let degenerate :=
      if number_eqb dx 0
      then mkPoint nodeCenterX (nodeCenterY + Math_sign dy * halfHeight)
      else if number_eqb dy 0
      then mkPoint (nodeCenterX + Math_sign dx * halfWidth) nodeCenterY
      else mkPoint nodeCenterX (Node.y node + Node.height node) in
    match minT with
    | Infinity => degenerate
    | Fin t =>
        if number_eqb t 0 then degenerate
        else
          let intersectX := nodeCenterX + dx * t in
          let intersectY := nodeCenterY + dy * t in
          let intersectX :=
            Rmax (Node.x node) (Rmin intersectX (Node.x node + Node.width node)) in
          let intersectY :=
            Rmax (Node.y node) (Rmin intersectY (Node.y node + Node.height node)) in
          mkPoint intersectX intersectY
    end.

(** The point lies in the closed box of the node. *)
Definition in_box (node : Node.t) (p : Point) : Prop :=
  Node.x node <= px p <= Node.x node + Node.width node
  /\ Node.y node <= py p <= Node.y node + Node.height node.

(** One coordinate of the point is that of a side of the box. *)
Definition on_side (node : Node.t) (p : Point) : Prop :=
  px p = Node.x node \/ px p = Node.x node + Node.width node
  \/ py p = Node.y node \/ py p = Node.y node + Node.height node.

(** The factor by which the deltas are scaled to reach the border of a box
    with these half extents: the smaller of [|halfWidth / dx|] and
    [|halfHeight / dy|], over the deltas that are not zero. *)
Definition rayScale (halfWidth halfHeight dx dy : number) : number :=
  if number_eqb dx 0 then Rabs (halfHeight / dy)
  else if number_eqb dy 0 then Rabs (halfWidth / dx)
  else Rmin (Rabs (halfWidth / dx)) (Rabs (halfHeight / dy)).

(** The point at that factor along the deltas from the center, and the
    middle of the bottom side when both deltas are zero. *)
Definition boundaryPoint (node : Node.t) (dx dy : number) : Point :=
  let t := rayScale (Node.width node / 2) (Node.height node / 2) dx dy in
  if number_eqb dx 0 && number_eqb dy 0
  then mkPoint (Node.x node + Node.width node / 2)
               (Node.y node + Node.height node)
  else mkPoint (Node.x node + Node.width node / 2 + dx * t)
               (Node.y node + Node.height node / 2 + dy * t).

(** ** The transient state of the editor *)

(** The state cells of [CurrentRealityTree]. *)
Module Tree.
Record t : Type := mk
  { draggingNode : option string;
    dragOffset : Point;
    pendingEdge : option PendingEdge.t;
    selectedEdgeId : option string;
    potentialTargetNodeId : option string }.

Definition initial : t := mk None (mkPoint 0 0) None None None.

Definition setDraggingNode (v : option string) (s : t) : t :=
  mk v (dragOffset s) (pendingEdge s) (selectedEdgeId s)
     (potentialTargetNodeId s).

Definition setDragOffset (v : Point) (s : t) : t :=
  mk (draggingNode s) v (pendingEdge s) (selectedEdgeId s)
     (potentialTargetNodeId s).

Definition setPendingEdge
    (f : option PendingEdge.t -> option PendingEdge.t) (s : t) : t :=
  mk (draggingNode s) (dragOffset s) (f (pendingEdge s)) (selectedEdgeId s)
     (potentialTargetNodeId s).

Definition setSelectedEdgeId (v : option string) (s : t) : t :=
  mk (draggingNode s) (dragOffset s) (pendingEdge s) v
     (potentialTargetNodeId s).

Definition setPotentialTargetNodeId (v : option string) (s : t) : t :=
  mk (draggingNode s) (dragOffset s) (pendingEdge s) (selectedEdgeId s) v.
End Tree.

(** The state cells and the ref of one [NodeComponent] that the resize and
    the editing handlers use. *)
Module Local.
Record ResizeStartInfo : Type := mkInfo
  { initialMouseX : number;
    initialMouseY : number;
    initialWidth : number;
    initialHeight : number }.

Record t : Type := mk
  { isEditing : bool;
    editText : string;
    isResizing : bool;
    resizeStartInfo : option ResizeStartInfo }.
End Local.

(** The editor: the store, the cells of the tree component and, for every
    node id (the React key of its component), the cells of that
    [NodeComponent]. *)
Module UI.
Record t : Type := mk
  { app : App.t;
    tree : Tree.t;
    local : string -> Local.t }.

Definition onApp (f : App.t -> App.t) (u : t) : t :=
  mk (f (app u)) (tree u) (local u).

Definition onTree (f : Tree.t -> Tree.t) (u : t) : t :=
  mk (app u) (f (tree u)) (local u).

Definition onLocal (k : string) (f : Local.t -> Local.t) (u : t) : t :=
  mk (app u) (tree u)
     (fun k' => if (k' =? k)%string then f (local u k') else local u k').

(** A freshly mounted component of a node shows its text and is neither
    edited nor resized. *)
Definition mounted (ns : list Node.t) (k : string) : Local.t :=
  match find (fun n => (Node.id n =? k)%string) ns with
  | Some n => Local.mk false (Node.text n) false None
  | None => Local.mk false "" false None
  end.

Definition initial : t := mk App.initial Tree.initial (mounted []).
End UI.

(** A pointer event carries the client coordinates; the bounding rectangle
    of the drawing pane, when the pane is mounted, gives its left and top. *)
Record MouseEvent : Type := mkMouse { clientX : number; clientY : number }.

Record Rect : Type := mkRect { left : number; top : number }.

Inductive PortType : Type := source | target.

(** [!!v] for an optional id: [null] and the empty string are falsy. *)
Definition truthy (v : option string) : bool :=
  match v with
  | Some s => negb (s =? "")%string
  | None => false
  end.

(** [paneRect?.left || 0] and [paneRect?.top || 0] *)
Definition left_or_0 (paneRect : option Rect) : number :=
  match paneRect with Some r => left r | None => 0 end.

Definition top_or_0 (paneRect : option Rect) : number :=
  match paneRect with Some r => top r | None => 0 end.

(** ** src/App.tsx: the panel and the name of the exported file *)

Module AppShell.

(** [shouldShowAiPanel]; [apiKey] is [process.env.API_KEY] being truthy,
    [aiError] the error message or [null], [count] the number of
    suggestions. *)
Definition shouldShowAiPanel (apiKey aiPanelUserHidden isAnalyzing : bool)
    (aiError : option string) (count : nat) : bool :=
  apiKey && negb aiPanelUserHidden
  && (isAnalyzing || truthy aiError || (0 <? count)%nat
      || (negb isAnalyzing && negb (truthy aiError) && (count =? 0)%nat)).

(** [s.endsWith(suffix)]: some tail of [s] is [suffix]. *)
Fixpoint endsWith (s suffix : string) : bool :=
  if (s =? suffix)%string then true
  else match s with
       | EmptyString => false
       | String _ rest => endsWith rest suffix
       end.

(** The name [handleConfirmDownloadPdf] passes to [pdf.save]. *)
Definition savedFilename (filename : string) : string :=
  if endsWith filename ".pdf" then filename else (filename ++ ".pdf")%string.

End AppShell.

(** ** src/components/CurrentRealityTree.tsx: the handlers *)

Module CurrentRealityTree.

Definition clearPending (u : UI.t) : UI.t :=
  UI.onTree (fun s => Tree.setPotentialTargetNodeId None
                        (Tree.setPendingEdge (fun _ => None) s)) u.

Definition handleNodeClick (u : UI.t) (nodeId : string) : UI.t :=
  clearPending
    (UI.onTree (Tree.setSelectedEdgeId None)
       (UI.onApp (App.setSelectedNodeId (Some nodeId)) u)).

Definition handleNodeDragStart (u : UI.t) (paneRect : option Rect)
    (e : MouseEvent) (nodeId : string) : UI.t :=
  match find (fun n => (Node.id n =? nodeId)%string) (App.nodes (UI.app u)) with
  | Some node =>
      let offsetX := clientX e - left_or_0 paneRect - Node.x node in
      let offsetY := clientY e - top_or_0 paneRect - Node.y node in
      clearPending
        (UI.onTree (Tree.setSelectedEdgeId None)
           (UI.onApp (App.setSelectedNodeId (Some nodeId))
              (UI.onTree (fun s => Tree.setDragOffset (mkPoint offsetX offsetY)
                                     (Tree.setDraggingNode (Some nodeId) s)) u)))
  | None => u
  end.

Definition handleNodeDrag (u : UI.t) (paneRect : option Rect)
    (e : MouseEvent) (nodeId : string) : UI.t :=
  if negb (truthy (Tree.draggingNode (UI.tree u)))
     || negb (App.opt_is (Tree.draggingNode (UI.tree u)) nodeId)
  then u
  else
    match paneRect with
    | Some r =>
        let newX := clientX e - left r - px (Tree.dragOffset (UI.tree u)) in
        let newY := clientY e - top r - py (Tree.dragOffset (UI.tree u)) in
        UI.onApp (fun s => App.updateNodePosition s nodeId newX newY) u
    | None => u
    end.

Definition handleNodeDragEnd (u : UI.t) (nodeId : string) : UI.t :=
  if App.opt_is (Tree.draggingNode (UI.tree u)) nodeId
  then UI.onTree (Tree.setDraggingNode None) u
  else u.

(** The two listeners the component keeps on the document. *)
Definition globalMouseMove (u : UI.t) (paneRect : option Rect)
    (e : MouseEvent) : UI.t :=
  match Tree.draggingNode (UI.tree u) with
  | Some k => if truthy (Some k) then handleNodeDrag u paneRect e k else u
  | None => u
  end.

Definition globalMouseUp (u : UI.t) : UI.t :=
  match Tree.draggingNode (UI.tree u) with
  | Some k => if truthy (Some k) then handleNodeDragEnd u k else u
  | None => u
  end.

Definition handleStartConnectFromNode (u : UI.t) (nodeId : string) : UI.t :=
  match find (fun n => (Node.id n =? nodeId)%string) (App.nodes (UI.app u)) with
  | None => u
  | Some node =>
      let bottomX := Node.x node + Node.width node / 2 in
      let bottomY := Node.y node + Node.height node in
      UI.onTree (fun s =>
                   Tree.setPotentialTargetNodeId None
                     (Tree.setSelectedEdgeId None
                        (Tree.setPendingEdge
                           (fun _ => Some (PendingEdge.mk nodeId bottomX bottomY
                                                          bottomX bottomY)) s)))
        (UI.onApp (App.setSelectedNodeId (Some nodeId)) u)
  end.

(** [o] is what [generateId()] returns if [onAddEdge] creates an edge. *)
Definition handlePortMouseDown (u : UI.t) (o : Oracle)
    (paneRect : option Rect) (e : MouseEvent) (nodeId : string)
    (portType : PortType) : UI.t :=
  match portType with
  | source =>
      match paneRect with
      | None => u
      | Some r =>
          let initialMouseX := clientX e - left r in
          let initialMouseY := clientY e - top r in
          UI.onTree (fun s =>
                       Tree.setPotentialTargetNodeId None
                         (Tree.setSelectedEdgeId None
                            (Tree.setPendingEdge
                               (fun _ => Some (PendingEdge.mk nodeId
                                                 initialMouseX initialMouseY
                                                 initialMouseX initialMouseY)) s)))
            (UI.onApp (App.setSelectedNodeId (Some nodeId)) u)
      end
  | target =>
      match Tree.pendingEdge (UI.tree u) with
      | Some pendingEdge =>
          if negb (PendingEdge.sourceId pendingEdge =? nodeId)%string
          then
            clearPending
              (UI.onApp (fun s => App.addEdge s o (PendingEdge.sourceId pendingEdge)
                                              nodeId) u)
          else u
      | None => u
      end
  end.

Definition handlePortMouseUp (u : UI.t) (o : Oracle) (nodeId : string)
    (portType : PortType) : UI.t :=
  match Tree.pendingEdge (UI.tree u), portType with
  | Some pendingEdge, target =>
      if negb (PendingEdge.sourceId pendingEdge =? nodeId)%string
      then
        clearPending
          (if App.opt_is (Tree.potentialTargetNodeId (UI.tree u)) nodeId
           then UI.onApp (fun s => App.addEdge s o (PendingEdge.sourceId pendingEdge)
                                               nodeId) u
           else u)
      else u
  | _, _ => u
  end.

(** The distance the hover test of [handleMouseMoveInPane] computes: from
    the pointer to [(x + width / 2, y + PORT_SIZE / 2)]. *)
Definition distanceToPort (mouseX mouseY : number) (node : Node.t) : number :=
  sqrt ((mouseX - (Node.x node + Node.width node / 2)) ^ 2
        + (mouseY - (Node.y node + PORT_SIZE / 2)) ^ 2).

(** The loop over [nodes]: the id the loop passes to
    [setPotentialTargetNodeId] before its [break], or [None] when it ends
    with [foundTarget] still false. *)
Fixpoint findTarget (nodes : list Node.t) (sourceId : string)
    (mouseX mouseY : number) : option string :=
  match nodes with
  | [] => None
  | node :: rest =>
      if (Node.id node =? sourceId)%string
      then findTarget rest sourceId mouseX mouseY
      else if number_ltb (distanceToPort mouseX mouseY node) (PORT_SIZE * 2.5)
      then Some (Node.id node)
      else findTarget rest sourceId mouseX mouseY
  end.

Definition handleMouseMoveInPane (u : UI.t) (paneRect : option Rect)
    (e : MouseEvent) : UI.t :=
  match Tree.pendingEdge (UI.tree u), paneRect with
  | Some pendingEdge, Some r =>
      let mouseX := clientX e - left r in
      let mouseY := clientY e - top r in
      UI.onTree
        (fun s =>
           Tree.setPotentialTargetNodeId
             (findTarget (App.nodes (UI.app u)) (PendingEdge.sourceId pendingEdge)
                         mouseX mouseY)
             (Tree.setPendingEdge
                (fun prev =>
                   match prev with
                   | Some p => Some (PendingEdge.mk (PendingEdge.sourceId p)
                                       (PendingEdge.sourceX p) (PendingEdge.sourceY p)
                                       mouseX mouseY)
                   | None => None
                   end) s)) u
  | _, _ => u
  end.

(** What the loop asks of a node to take it: it is not the source of the
    pending edge, and the pointer is closer to its hover point than 2.5
    port diameters. *)
Definition accepts (sourceId : string) (mouseX mouseY : number)
    (node : Node.t) : Prop :=
  Node.id node <> sourceId
  /\ distanceToPort mouseX mouseY node < PORT_SIZE * 2.5.

(** [onTargetPort] is [target.closest('[data-port-type="target"]')] being
    an element. *)
Definition handleMouseUpInPane (u : UI.t) (onTargetPort : bool) : UI.t :=
  match Tree.pendingEdge (UI.tree u) with
  | Some _ =>
      if negb onTargetPort && negb (truthy (Tree.potentialTargetNodeId (UI.tree u)))
      then clearPending u
      else u
  | None => u
  end.

Definition handlePaneClick (u : UI.t) (targetIsPane : bool) : UI.t :=
  if targetIsPane then
    let u1 := UI.onTree (Tree.setSelectedEdgeId None)
                (UI.onApp (App.setSelectedNodeId None) u) in
    match Tree.pendingEdge (UI.tree u) with
    | Some _ => clearPending u1
    | None => u1
    end
  else u.

Definition handleEdgeClick (u : UI.t) (edgeId : string) : UI.t :=
  clearPending
    (UI.onApp (App.setSelectedNodeId None)
       (UI.onTree (Tree.setSelectedEdgeId (Some edgeId)) u)).

(** The click on the cross of the selected edge. *)
Definition handleEdgeDeleteClick (u : UI.t) (edgeId : string) : UI.t :=
  UI.onTree (Tree.setSelectedEdgeId None)
    (UI.onApp (fun s => App.deleteEdge s edgeId) u).

(** The two ends of the line drawn for an edge, or nothing when one of its
    nodes is not in the list. *)
Definition edgeEndpoints (nodes : list Node.t) (edge : Edge.t)
    : option (Point * Point) :=
  match find (fun n => (Node.id n =? Edge.sourceId edge)%string) nodes,
        find (fun n => (Node.id n =? Edge.targetId edge)%string) nodes with
  | Some sourceNode, Some targetNode =>
      let sourceNodeCenter := nodeCenter sourceNode in
      let targetNodeCenter := nodeCenter targetNode in
      let startPoint :=
        calculateIntersectionPointWithNodeBoundary sourceNode targetNodeCenter in
      let endPoint :=
        calculateIntersectionPointWithNodeBoundary targetNode sourceNodeCenter in
      Some (startPoint, endPoint)
  | _, _ => None
  end.

(** The [keydown] listener on the document. *)
Definition handleKeyDown (u : UI.t) (key : string) : UI.t :=
  if (key =? "Escape")%string then
    match Tree.pendingEdge (UI.tree u) with
    | Some _ => clearPending u
    | None => u
    end
  else u.

(** [isHotTargetForConnection] of the component of [node]. *)
Definition isHotTargetForConnection (u : UI.t) (node : Node.t) : bool :=
  App.opt_is (Tree.potentialTargetNodeId (UI.tree u)) (Node.id node)
  && match Tree.pendingEdge (UI.tree u) with
     | Some p => negb (PendingEdge.sourceId p =? Node.id node)%string
     | None => false
     end.

End CurrentRealityTree.

(** ** src/components/NodeComponent.tsx: resizing and the editor's keys *)

Module NodeComponent.

Definition handleResizeMouseDown (u : UI.t) (e : MouseEvent)
    (node : Node.t) : UI.t :=
  UI.onLocal (Node.id node)
    (fun l => Local.mk (Local.isEditing l) (Local.editText l) true
                (Some (Local.mkInfo (clientX e) (clientY e)
                                    (Node.width node) (Node.height node)))) u.

(** The [mousemove] listener that the component of [node] keeps on the
    document while it is resizing. *)
Definition handleGlobalMouseMove (u : UI.t) (e : MouseEvent)
    (node : Node.t) : UI.t :=
  let l := UI.local u (Node.id node) in
  match Local.isResizing l, Local.resizeStartInfo l with
  | true, Some info =>
      let deltaX := clientX e - Local.initialMouseX info in
      let deltaY := clientY e - Local.initialMouseY info in
      let newWidth := Local.initialWidth info + deltaX in
      let newHeight := Local.initialHeight info + deltaY in
      let newWidth := Rmax MIN_NODE_WIDTH newWidth in
      let newHeight := Rmax MIN_NODE_HEIGHT newHeight in
      UI.onApp (fun s => App.handleUpdateNodeDimensions s (Node.id node)
                           newWidth newHeight) u
  | _, _ => u
  end.

Definition handleGlobalMouseUp (u : UI.t) (node : Node.t) : UI.t :=
  if Local.isResizing (UI.local u (Node.id node))
  then UI.onLocal (Node.id node)
         (fun l => Local.mk (Local.isEditing l) (Local.editText l) false None) u
  else u.

(** [onMouseDown] of the node's box; [onBody] says that the target of the
    event is the box itself or lies in its [.node-content]. *)
Definition onMouseDown (u : UI.t) (paneRect : option Rect) (e : MouseEvent)
    (node : Node.t) (onBody : bool) : UI.t :=
  if negb (Local.isResizing (UI.local u (Node.id node))) && onBody
  then CurrentRealityTree.handleNodeDragStart
         (CurrentRealityTree.handleNodeClick u (Node.id node))
         paneRect e (Node.id node)
  else u.

Definition isCurrentSizeDefault (node : Node.t) (defaultNodeSize : Size)
    : bool :=
  number_eqb (Node.width node) (size_width defaultNodeSize)
  && number_eqb (Node.height node) (size_height defaultNodeSize).

(** The [Escape] branch of the text area's [handleKeyDown]. *)
Definition handleKeyDown_Escape (u : UI.t) (node : Node.t) : UI.t :=
  UI.onLocal (Node.id node)
    (fun l => Local.mk false (Node.text node) (Local.isResizing l)
                (Local.resizeStartInfo l)) u.

End NodeComponent.

(** ** The Escape key *)

(** A press of Escape reaches the text area that has the focus, if one has
    ([focus] is the node of that component), and the listener on the
    document. *)
Definition pressEscape (u : UI.t) (focus : option Node.t) : UI.t :=
  CurrentRealityTree.handleKeyDown
    (match focus with
     | Some node => NodeComponent.handleKeyDown_Escape u node
     | None => u
     end) "Escape".

(** The gestures in flight. *)
Definition dragging (u : UI.t) : Prop :=
  Tree.draggingNode (UI.tree u) <> None.

Definition resizing (u : UI.t) : Prop :=
  exists k, Local.isResizing (UI.local u k) = true.

Definition connecting (u : UI.t) : Prop :=
  Tree.pendingEdge (UI.tree u) <> None.

Definition Idle (u : UI.t) : Prop :=
  ~ dragging u /\ ~ resizing u /\ ~ connecting u.

(** ** The events of the editor

    One event is one call of a handler: by the gesture that the components
    wire to it, or a command sent to the store. *)

Module Editor.

Inductive event : Type :=
| NodeMouseDown (paneRect : option Rect) (e : MouseEvent) (node : Node.t)
                (onBody : bool)
| DragMove (paneRect : option Rect) (e : MouseEvent)
| DragUp
| StartConnect (nodeId : string)
| PortDown (o : Oracle) (paneRect : option Rect) (e : MouseEvent)
           (nodeId : string) (portType : PortType)
| PortUp (o : Oracle) (nodeId : string) (portType : PortType)
| PaneMove (paneRect : option Rect) (e : MouseEvent)
| PaneUp (onTargetPort : bool)
| PaneClick (targetIsPane : bool)
| EdgeClick (edgeId : string)
| EdgeDeleteClick (edgeId : string)
| KeyDown (key : string)
| ResizeDown (e : MouseEvent) (node : Node.t)
| ResizeMove (e : MouseEvent) (node : Node.t)
| ResizeUp (node : Node.t)
| EditorEscape (node : Node.t)
| Store (c : App.command).

Definition step (u : UI.t) (ev : event) : UI.t :=
  match ev with
  | NodeMouseDown paneRect e node onBody =>
      NodeComponent.onMouseDown u paneRect e node onBody
  | DragMove paneRect e => CurrentRealityTree.globalMouseMove u paneRect e
  | DragUp => CurrentRealityTree.globalMouseUp u
  | StartConnect nodeId => CurrentRealityTree.handleStartConnectFromNode u nodeId
  | PortDown o paneRect e nodeId portType =>
      CurrentRealityTree.handlePortMouseDown u o paneRect e nodeId portType
  | PortUp o nodeId portType =>
      CurrentRealityTree.handlePortMouseUp u o nodeId portType
  | PaneMove paneRect e => CurrentRealityTree.handleMouseMoveInPane u paneRect e
  | PaneUp onTargetPort => CurrentRealityTree.handleMouseUpInPane u onTargetPort
  | PaneClick targetIsPane => CurrentRealityTree.handlePaneClick u targetIsPane
  | EdgeClick edgeId => CurrentRealityTree.handleEdgeClick u edgeId
  | EdgeDeleteClick edgeId => CurrentRealityTree.handleEdgeDeleteClick u edgeId
  | KeyDown key => CurrentRealityTree.handleKeyDown u key
  | ResizeDown e node => NodeComponent.handleResizeMouseDown u e node
  | ResizeMove e node => NodeComponent.handleGlobalMouseMove u e node
  | ResizeUp node => NodeComponent.handleGlobalMouseUp u node
  | EditorEscape node => NodeComponent.handleKeyDown_Escape u node
  | Store c => UI.onApp (fun s => App.exec s c) u
  end.

Fixpoint steps (u : UI.t) (evs : list event) : UI.t :=
  match evs with
  | [] => u
  | ev :: rest => steps (step u ev) rest
  end.

(** A node and an edge are never selected together. *)
Definition one_selection (u : UI.t) : Prop :=
  App.selectedNodeId (UI.app u) = None
  \/ Tree.selectedEdgeId (UI.tree u) = None.

(** A hot target is there only while an edge is pending, and it is not
    the source of that edge. *)
Definition hot_target_ok (u : UI.t) : Prop :=
  forall k, Tree.potentialTargetNodeId (UI.tree u) = Some k ->
    exists p, Tree.pendingEdge (UI.tree u) = Some p
              /\ PendingEdge.sourceId p <> k.

(** The event is a gesture: it is not a command sent to the store from
    outside the tree, and not the click that deletes an edge. *)
Definition gesture (ev : event) : Prop :=
  match ev with
  | Store _ | EdgeDeleteClick _ => False
  | _ => True
  end.

End Editor.

(** ** A small diagram

    Scenario 1 of the specification: an undesirable effect at the origin
    and a cause below and to the right of it, both of the default size. *)

Module Sample.

Definition A : Node.t := Node.mk "A" "Novo EI" 0 0 UDE 200 70.
Definition B : Node.t := Node.mk "B" "Nova Causa" 300 300 CAUSE 200 70.

Definition o1 : Oracle := mkOracle "id_1" 0 0.
Definition o2 : Oracle := mkOracle "id_2" 0 0.

(** What [generateId()] returns when the clock reads 1730534400000 and the
    random source gives the suffix 4fzzzxjyl. *)
Definition o_same : Oracle := mkOracle "id_1730534400000_4fzzzxjyl" 0 0.

Definition store : App.t :=
  App.mk [A; B] [] None false (mkSize NODE_WIDTH NODE_HEIGHT).

Definition ui : UI.t := UI.mk store Tree.initial (UI.mounted [A; B]).

Definition pane : Rect := mkRect 0 0.

(** The pointer goes down on the source port of B, at the middle of its
    bottom side: a pending edge from B. *)
Definition connecting_from_B : UI.t :=
  CurrentRealityTree.handlePortMouseDown ui o1 (Some pane) (mkMouse 400 370)
    "B" source.

(** The pointer goes down on the body of A at (15, 12): A is dragged. *)
Definition dragging_A : UI.t :=
  NodeComponent.onMouseDown ui (Some pane) (mkMouse 15 12) A true.

(** A third node, drawn before A and B and ten pixels to the right of A,
    so that the hover points of the two are ten pixels apart. *)
Definition C : Node.t := Node.mk "C" "Nova Causa" 10 0 CAUSE 200 70.

Definition crowded : UI.t :=
  UI.mk (App.mk [C; A; B] [] None false (mkSize NODE_WIDTH NODE_HEIGHT))
        Tree.initial (UI.mounted [C; A; B]).

(** Scenario 3 of the specification: a node at (10, 10). *)
Definition E : Node.t := Node.mk "E" "Novo EI" 10 10 UDE 200 70.

Definition ui_E : UI.t :=
  UI.mk (App.mk [E] [] None false (mkSize NODE_WIDTH NODE_HEIGHT))
        Tree.initial (UI.mounted [E]).

(** The pointer goes down on the resize handle of A. *)
Definition resizing_A : UI.t :=
  NodeComponent.handleResizeMouseDown ui (mkMouse 200 70) A.

End Sample.

(** * Properties *)

(** ** The graph store *)

Section GraphStore.

Lemma has_edge_true (es : list Edge.t) (a b : string) :
  App.has_edge es a b = true
  <-> exists e, In e es /\ Edge.sourceId e = a /\ Edge.targetId e = b.
Proof.
  unfold App.has_edge. rewrite existsb_exists.
  split; intros [e [Hin H]]; exists e; split; trivial.
  - apply andb_true_iff in H. destruct H as [Ha Hb].
    now apply String.eqb_eq in Ha; apply String.eqb_eq in Hb.
  - destruct H as [Ha Hb]. subst a b. now rewrite !String.eqb_refl.
Qed.

Lemma has_edge_false (es : list Edge.t) (a b : string) :
  App.has_edge es a b = false
  <-> forall e, In e es -> ~ (Edge.sourceId e = a /\ Edge.targetId e = b).
Proof.
  split.
  - intros H e Hin Hab.
    assert (App.has_edge es a b = true) by (apply has_edge_true; eauto).
    congruence.
  - intros H. destruct (App.has_edge es a b) eqn:E; trivial.
    apply has_edge_true in E. destruct E as [e [Hin Hab]].
    now destruct (H e Hin).
Qed.

Lemma has_edge_app (es fs : list Edge.t) (a b : string) :
  App.has_edge (es ++ fs) a b = App.has_edge es a b || App.has_edge fs a b.
Proof. unfold App.has_edge. apply existsb_app. Qed.

Lemma count_edges_app (es fs : list Edge.t) (a b : string) :
  App.count_edges (es ++ fs) a b
  = (App.count_edges es a b + App.count_edges fs a b)%nat.
Proof. unfold App.count_edges. now rewrite filter_app, length_app. Qed.

Lemma count_edges_0 (es : list Edge.t) (a b : string) :
  App.has_edge es a b = false -> App.count_edges es a b = 0%nat.
Proof.
  unfold App.has_edge, App.count_edges.
  induction es as [|e es IH]; simpl; trivial.
  intros H. apply orb_false_iff in H. destruct H as [He Hes].
  rewrite He. auto.
Qed.

Lemma addEdge_rejected (s : App.t) (o : Oracle) (a b : string) :
  a = b \/ App.has_edge (App.edges s) a b = true -> App.addEdge s o a b = s.
Proof.
  unfold App.addEdge. intros [H | H].
  - subst b. now rewrite String.eqb_refl.
  - rewrite H. now rewrite orb_true_r.
Qed.

Lemma addEdge_accepted (s : App.t) (o : Oracle) (a b : string) :
  a <> b -> App.has_edge (App.edges s) a b = false ->
  App.addEdge s o a b
  = App.setEdges (fun prev => prev ++ [Edge.mk (generateId o) a b]) s.
Proof.
  unfold App.addEdge. intros Hab H.
  apply String.eqb_neq in Hab. now rewrite Hab, H.
Qed.

Lemma addEdge_then_present (s : App.t) (o : Oracle) (a b : string) :
  a <> b -> App.has_edge (App.edges (App.addEdge s o a b)) a b = true.
Proof.
  intros Hab. destruct (App.has_edge (App.edges s) a b) eqn:E.
  - rewrite addEdge_rejected; auto.
  - rewrite addEdge_accepted; trivial. simpl.
    rewrite has_edge_app. unfold App.has_edge at 2. simpl.
    rewrite !String.eqb_refl. simpl. apply orb_true_r.
Qed.

Lemma addEdge_twice (s : App.t) (o o' : Oracle) (a b : string) :
  App.addEdge (App.addEdge s o a b) o' a b = App.addEdge s o a b.
Proof.
  destruct (String.eqb_spec a b) as [Hab | Hab].
  - rewrite (addEdge_rejected s); auto. apply addEdge_rejected; auto.
  - apply addEdge_rejected. right. now apply addEdge_then_present.
Qed.

(** An id that no edge has keeps the ids of the edges distinct. *)
Lemma addEdge_ids (s : App.t) (o : Oracle) (a b : string) :
  ~ In (generateId o) (map Edge.id (App.edges s)) ->
  NoDup (map Edge.id (App.edges s)) ->
  NoDup (map Edge.id (App.edges (App.addEdge s o a b))).
Proof.
  intros Hfresh Hnd. unfold App.addEdge.
  destruct ((a =? b)%string || App.has_edge (App.edges s) a b); trivial.
  simpl. rewrite map_app. simpl.
  apply NoDup_app; [trivial | repeat constructor; intros [] | ].
  intros k Hk [<- | []]. contradiction.
Qed.

(** C3, as the code has it: [addEdge(a, b)] leaves the store as it is when
    [a] is [b] or an edge from [a] to [b] is already there; otherwise it
    appends one edge, from [a] to [b], whose id is the string that
    [generateId()] returns in that call, and changes nothing else.  So a
    second call with the same arguments changes nothing, two calls leave
    exactly one edge from [a] to [b] (in a store that had at most one), and
    [addEdge(a, a)] never creates an edge.  The id is not compared with
    the ids in use: the ids of the edges stay distinct when the generated
    string is the id of no edge. *)
Theorem addEdge_spec (s : App.t) (o o' : Oracle) (a b : string) :
  ((a = b
    \/ exists e, In e (App.edges s) /\ Edge.sourceId e = a /\ Edge.targetId e = b) ->
   App.addEdge s o a b = s)
  /\ ((a <> b
       /\ forall e, In e (App.edges s) ->
                    ~ (Edge.sourceId e = a /\ Edge.targetId e = b)) ->
      App.edges (App.addEdge s o a b)
      = App.edges s ++ [Edge.mk (generateId o) a b]
      /\ App.nodes (App.addEdge s o a b) = App.nodes s
      /\ App.selectedNodeId (App.addEdge s o a b) = App.selectedNodeId s
      /\ App.aiPanelUserHidden (App.addEdge s o a b) = App.aiPanelUserHidden s
      /\ App.defaultNodeSize (App.addEdge s o a b) = App.defaultNodeSize s)
  /\ App.addEdge (App.addEdge s o a b) o' a b = App.addEdge s o a b
  /\ (a <> b -> (App.count_edges (App.edges s) a b <= 1)%nat ->
      App.count_edges (App.edges (App.addEdge (App.addEdge s o a b) o' a b)) a b
      = 1%nat)
  /\ App.addEdge s o a a = s
  /\ (~ In (generateId o) (map Edge.id (App.edges s)) ->
      NoDup (map Edge.id (App.edges s)) ->
      NoDup (map Edge.id (App.edges (App.addEdge s o a b)))).
Proof.
  split; [|split; [|split; [|split; [|split]]]]; [| | | | |apply addEdge_ids];
    repeat split.
  - intros [H | H]; apply addEdge_rejected; auto.
    right. now apply has_edge_true.
  - rewrite addEdge_accepted; try tauto. now apply has_edge_false.
  - rewrite addEdge_accepted; try tauto. now apply has_edge_false.
  - rewrite addEdge_accepted; try tauto. now apply has_edge_false.
  - rewrite addEdge_accepted; try tauto. now apply has_edge_false.
  - rewrite addEdge_accepted; try tauto. now apply has_edge_false.
  - apply addEdge_twice.
  - intros Hab Hle. rewrite addEdge_twice.
    destruct (App.has_edge (App.edges s) a b) eqn:E.
    + rewrite addEdge_rejected; auto.
      assert ((0 < App.count_edges (App.edges s) a b)%nat); [|auto with arith].
      apply has_edge_true in E. destruct E as [e [Hin [Ha Hb]]].
      unfold App.count_edges.
      assert (Hf : In e (filter (fun e => (Edge.sourceId e =? a)%string
                                          && (Edge.targetId e =? b)%string)
                                (App.edges s))).
      { apply filter_In. split; trivial. subst a b.
        now rewrite !String.eqb_refl. }
      destruct (filter _ (App.edges s)); simpl; [contradiction | auto with arith].
    + rewrite addEdge_accepted; trivial. simpl.
      rewrite count_edges_app, count_edges_0; trivial.
      unfold App.count_edges. simpl. now rewrite !String.eqb_refl.
  - apply addEdge_rejected. now left.
Qed.

Lemma addEdge_spec_witness :
  App.edges (App.addEdge Sample.store Sample.o1 "B" "A") = [Edge.mk "id_1" "B" "A"]
  /\ App.addEdge Sample.store Sample.o1 "A" "A" = Sample.store
  /\ App.count_edges
       (App.edges (App.addEdge (App.addEdge Sample.store Sample.o1 "B" "A")
                               Sample.o2 "B" "A")) "B" "A" = 1%nat.
Proof.
  destruct (addEdge_spec Sample.store Sample.o1 Sample.o2 "B" "A")
    as [_ [Hnew [_ [Hone _]]]].
  destruct (addEdge_spec Sample.store Sample.o1 Sample.o2 "A" "A")
    as [Hsame _].
  split; [|split].
  - destruct Hnew as [He _]; [|exact He].
    split; [discriminate | intros e []].
  - apply Hsame. now left.
  - apply Hone; [discriminate | cbv; lia].
Defined.

(** C3, as the specification has it, fails where it says that the id is
    fresh: when [generateId()] returns the same string in two calls (the
    same millisecond on the clock and the same draw of the random source),
    the edge from B to A is appended, as the only edge from B to A, with
    the id that the edge from A to B already has. *)
Lemma addEdge_reuses_id :
  let s := App.addEdge Sample.store Sample.o_same "A" "B" in
  let s' := App.addEdge s Sample.o_same "B" "A" in
  App.edges s = [Edge.mk "id_1730534400000_4fzzzxjyl" "A" "B"]
  /\ "B"%string <> "A"%string
  /\ App.has_edge (App.edges s) "B" "A" = false
  /\ App.edges s'
     = App.edges s ++ [Edge.mk "id_1730534400000_4fzzzxjyl" "B" "A"]
  /\ In "id_1730534400000_4fzzzxjyl"%string (map Edge.id (App.edges s))
  /\ ~ NoDup (map Edge.id (App.edges s')).
Proof.
  intros s s'.
  split; [reflexivity | split; [discriminate | split; [reflexivity|]]].
  split; [reflexivity | split; [now left|]].
  intros H. inversion H as [|k l Hnot _]. apply Hnot. now left.
Qed.

Lemma In_filter_nodes (ns : list Node.t) (k : string) (n : Node.t) :
  In n (filter (fun n => negb (Node.id n =? k)%string) ns)
  <-> In n ns /\ Node.id n <> k.
Proof.
  rewrite filter_In. split; intros [Hin H]; split; trivial.
  - apply negb_true_iff in H. now apply String.eqb_neq.
  - apply negb_true_iff. now apply String.eqb_neq.
Qed.

Lemma In_filter_edges (es : list Edge.t) (k : string) (e : Edge.t) :
  In e (filter (fun e => negb (Edge.sourceId e =? k)%string
                         && negb (Edge.targetId e =? k)%string) es)
  <-> In e es /\ Edge.sourceId e <> k /\ Edge.targetId e <> k.
Proof.
  rewrite filter_In, andb_true_iff, !negb_true_iff, !String.eqb_neq.
  tauto.
Qed.

Lemma deleteNode_nodes (s : App.t) (k : string) :
  App.nodes (App.deleteNode s k)
  = filter (fun n => negb (Node.id n =? k)%string) (App.nodes s).
Proof. unfold App.deleteNode. now destruct (App.opt_is _ _). Qed.

Lemma deleteNode_edges (s : App.t) (k : string) :
  App.edges (App.deleteNode s k)
  = filter (fun e => negb (Edge.sourceId e =? k)%string
                     && negb (Edge.targetId e =? k)%string) (App.edges s).
Proof. unfold App.deleteNode. now destruct (App.opt_is _ _). Qed.

Lemma opt_is_true (v : option string) (k : string) :
  App.opt_is v k = true <-> v = Some k.
Proof.
  destruct v as [k'|]; simpl.
  - rewrite String.eqb_eq. split; congruence.
  - split; discriminate.
Qed.

(** C4: [deleteNode(id)] keeps exactly the nodes whose id is not [id] and
    exactly the edges of which neither end is [id], both in their order; so
    no node with that id and no edge at that id remains.  The selection is
    cleared if it was [id] and kept otherwise, and the rest of the store
    does not change. *)
Theorem deleteNode_spec (s : App.t) (k : string) :
  (forall n, In n (App.nodes (App.deleteNode s k))
             <-> In n (App.nodes s) /\ Node.id n <> k)
  /\ (forall e, In e (App.edges (App.deleteNode s k))
                <-> In e (App.edges s)
                    /\ Edge.sourceId e <> k /\ Edge.targetId e <> k)
  /\ App.nodes (App.deleteNode s k)
     = filter (fun n => negb (Node.id n =? k)%string) (App.nodes s)
  /\ App.edges (App.deleteNode s k)
     = filter (fun e => negb (Edge.sourceId e =? k)%string
                        && negb (Edge.targetId e =? k)%string) (App.edges s)
  /\ App.selectedNodeId (App.deleteNode s k)
     = (if App.opt_is (App.selectedNodeId s) k then None
        else App.selectedNodeId s)
  /\ (App.opt_is (App.selectedNodeId s) k = true
      <-> App.selectedNodeId s = Some k)
  /\ App.aiPanelUserHidden (App.deleteNode s k) = App.aiPanelUserHidden s
  /\ App.defaultNodeSize (App.deleteNode s k) = App.defaultNodeSize s.
Proof.
  split; [|split; [|split; [|split; [|split; [|split; [|split]]]]]].
  - intros n. rewrite deleteNode_nodes. apply In_filter_nodes.
  - intros e. rewrite deleteNode_edges. apply In_filter_edges.
  - apply deleteNode_nodes.
  - apply deleteNode_edges.
  - unfold App.deleteNode. now destruct (App.opt_is _ _).
  - apply opt_is_true.
  - unfold App.deleteNode. now destruct (App.opt_is _ _).
  - unfold App.deleteNode. now destruct (App.opt_is _ _).
Qed.

Lemma deleteNode_spec_witness :
  App.nodes (App.deleteNode
               (App.addEdge Sample.store Sample.o1 "B" "A") "A") = [Sample.B]
  /\ App.edges (App.deleteNode
                  (App.addEdge Sample.store Sample.o1 "B" "A") "A") = [].
Proof.
  destruct (deleteNode_spec (App.addEdge Sample.store Sample.o1 "B" "A") "A")
    as [_ [_ [Hn [He _]]]].
  rewrite Hn, He. split; reflexivity.
Defined.

Lemma node_exists_map (f : Node.t -> Node.t) (ns : list Node.t) (k : string) :
  (forall n, Node.id (f n) = Node.id n) ->
  App.node_exists ns k -> App.node_exists (map f ns) k.
Proof.
  intros Hf [n [Hin Hk]]. exists (f n). split.
  - now apply in_map.
  - now rewrite Hf.
Qed.

Lemma node_exists_app (ns ms : list Node.t) (k : string) :
  App.node_exists ns k -> App.node_exists (ns ++ ms) k.
Proof.
  intros [n [Hin Hk]]. exists n. split; trivial.
  apply in_or_app. now left.
Qed.

Lemma node_exists_filter (ns : list Node.t) (k k' : string) :
  k <> k' -> App.node_exists ns k ->
  App.node_exists (filter (fun n => negb (Node.id n =? k')%string) ns) k.
Proof.
  intros Hk [n [Hin Hn]]. exists n. split; trivial.
  apply In_filter_nodes. split; trivial. congruence.
Qed.

Lemma edges_closed_map (f : Node.t -> Node.t) (s : App.t) :
  (forall n, Node.id (f n) = Node.id n) ->
  App.edges_closed s -> App.edges_closed (App.setNodes (map f) s).
Proof.
  intros Hf H e Hin. destruct (H e Hin) as [Hs Ht].
  split; now apply node_exists_map.
Qed.

(** A store command that is not [addEdge], or an [addEdge] between two
    nodes of the store, leaves every edge with both ends in the store. *)
Lemma exec_edges_closed (s : App.t) (c : App.command) :
  App.endpoints_exist s c -> App.edges_closed s ->
  App.edges_closed (App.exec s c).
Proof.
  intros Hc H. destruct c; simpl in *.
  - intros e Hin. destruct (H e Hin) as [Hs Ht].
    split; now apply node_exists_app.
  - apply edges_closed_map; trivial.
    intros n. now destruct (Node.id n =? nodeId)%string.
  - apply edges_closed_map; trivial.
    intros n. now destruct (Node.id n =? nodeId)%string.
  - apply edges_closed_map; trivial.
    intros n. now destruct (Node.id n =? nodeId)%string.
  - exact H.
  - intros e. rewrite deleteNode_edges, deleteNode_nodes, In_filter_edges.
    intros [Hin [Hs Ht]]. destruct (H e Hin) as [Es Et].
    split; now apply node_exists_filter.
  - unfold App.addEdge.
    destruct ((sourceId =? targetId)%string
              || App.has_edge (App.edges s) sourceId targetId); trivial.
    intros e Hin. simpl in Hin. apply in_app_or in Hin.
    destruct Hin as [Hin | [He | []]].
    + exact (H e Hin).
    + subst e. exact Hc.
  - intros e Hin. simpl in Hin. apply filter_In in Hin.
    exact (H e (proj1 Hin)).
Qed.

(** From the empty store, an admissible sequence of commands leaves every
    edge with both ends in the store. *)
Lemma run_edges_closed (cs : list App.command) (s : App.t) :
  App.admissible s cs -> App.edges_closed s -> App.edges_closed (App.run s cs).
Proof.
  revert s. induction cs as [|c cs IH]; simpl; intros s Hadm H; trivial.
  destruct Hadm as [Hc Hrest].
  apply IH; trivial. now apply exec_edges_closed.
Qed.

Lemma initial_edges_closed : App.edges_closed App.initial.
Proof. intros e []. Qed.

(** C2, as the code has it: [addNode], the three updates,
    [setDefaultNodeSize], [deleteNode] and [deleteEdge] keep both ends of
    every edge among the nodes of the store, and so does [addEdge(a, b)]
    when [a] and [b] are ids of nodes of the store; [addEdge] itself does
    not look at the node list. *)
Theorem store_keeps_edges_closed (s : App.t) (c : App.command) :
  App.endpoints_exist s c ->
  App.edges_closed s ->
  App.edges_closed (App.exec s c)
  /\ forall e, In e (App.edges (App.exec s c)) ->
       (exists n, In n (App.nodes (App.exec s c))
                  /\ Node.id n = Edge.sourceId e)
       /\ (exists n, In n (App.nodes (App.exec s c))
                     /\ Node.id n = Edge.targetId e).
Proof.
  intros Hc H.
  assert (H' := exec_edges_closed s c Hc H).
  split; [exact H' | exact H'].
Qed.

Lemma store_keeps_edges_closed_witness :
  App.edges_closed (App.exec Sample.store (App.AddEdge Sample.o1 "B" "A")).
Proof.
  apply (store_keeps_edges_closed Sample.store (App.AddEdge Sample.o1 "B" "A")).
  - split; [exists Sample.B | exists Sample.A]; simpl; auto.
  - intros e [].
Defined.

(** C2, as the specification has it, fails: in the empty store
    [addEdge("A", "B")] creates an edge of which neither end is a node. *)
Lemma addEdge_dangling :
  App.edges_closed App.initial
  /\ App.edges (App.exec App.initial (App.AddEdge Sample.o1 "A" "B"))
     = [Edge.mk "id_1" "A" "B"]
  /\ App.nodes (App.exec App.initial (App.AddEdge Sample.o1 "A" "B")) = []
  /\ ~ App.edges_closed (App.exec App.initial (App.AddEdge Sample.o1 "A" "B")).
Proof.
  split; [intros e [] | split; [reflexivity | split; [reflexivity|]]].
  intros H. destruct (H (Edge.mk "id_1" "A" "B")) as [[n [[] _]] _].
  now left.
Qed.

(** C7: after [updateNodeDimensions(id, w, h)] the node list has the same
    length and, position by position, a node with that id has width
    [max(w, 60)] and height [max(h, 40)], hence at least 60 and 40 and at
    least what was asked for, with its other fields as before; a node with
    another id is as before, and so are the edges and the rest of the
    store. *)
Theorem updateNodeDimensions_spec (s : App.t) (k : string) (w h : number) :
  MIN_NODE_WIDTH = 60 /\ MIN_NODE_HEIGHT = 40
  /\ List.length (App.nodes (App.handleUpdateNodeDimensions s k w h))
     = List.length (App.nodes s)
  /\ (forall i n, nth_error (App.nodes s) i = Some n ->
        exists n',
          nth_error (App.nodes (App.handleUpdateNodeDimensions s k w h)) i
          = Some n'
          /\ (Node.id n = k ->
              Node.width n' = Rmax w MIN_NODE_WIDTH
              /\ Node.height n' = Rmax h MIN_NODE_HEIGHT
              /\ MIN_NODE_WIDTH <= Node.width n'
              /\ MIN_NODE_HEIGHT <= Node.height n'
              /\ w <= Node.width n' /\ h <= Node.height n'
              /\ Node.id n' = Node.id n /\ Node.text n' = Node.text n
              /\ Node.x n' = Node.x n /\ Node.y n' = Node.y n
              /\ Node.type n' = Node.type n)
          /\ (Node.id n <> k -> n' = n))
  /\ App.edges (App.handleUpdateNodeDimensions s k w h) = App.edges s
  /\ App.selectedNodeId (App.handleUpdateNodeDimensions s k w h)
     = App.selectedNodeId s
  /\ App.defaultNodeSize (App.handleUpdateNodeDimensions s k w h)
     = App.defaultNodeSize s.
Proof.
  split; [reflexivity | split; [reflexivity|]].
  split; [simpl; apply length_map|].
  split; [|repeat split].
  intros i n Hn. simpl. rewrite nth_error_map, Hn. simpl.
  eexists. split; [reflexivity|]. split.
  - intros Hk. apply String.eqb_eq in Hk. rewrite Hk. simpl.
    rewrite (Rmax_comm w), (Rmax_comm h).
    repeat split; auto using Rmax_l, Rmax_r.
  - intros Hk. apply String.eqb_neq in Hk. now rewrite Hk.
Qed.

Lemma updateNodeDimensions_spec_witness :
  App.nodes (App.handleUpdateNodeDimensions Sample.store "A" 10 100)
  = [Node.mk "A" "Novo EI" 0 0 UDE 60 100; Sample.B].
Proof.
  destruct (updateNodeDimensions_spec Sample.store "A" 10 100)
    as [_ [_ [_ [H _]]]].
  destruct (H 0%nat Sample.A eq_refl) as [a [Ha [Hin _]]].
  destruct (H 1%nat Sample.B eq_refl) as [b [Hb [_ Hout]]].
  specialize (Hin eq_refl). specialize (Hout ltac:(discriminate)).
  destruct Hin as [Hw [Hh [_ [_ [_ [_ [Hi [Ht [Hx [Hy Hty]]]]]]]]]].
  destruct (App.nodes (App.handleUpdateNodeDimensions Sample.store "A" 10 100))
    as [|a' [|b' [|c' rest]]] eqn:E; try discriminate.
  simpl in Ha, Hb. injection Ha as ->. injection Hb as ->.
  subst b. destruct a as [i t x y ty wd ht]. simpl in *. subst.
  f_equal. f_equal.
  - unfold Rmax, MIN_NODE_WIDTH. destruct (Rle_dec 10 60); lra.
  - unfold Rmax, MIN_NODE_HEIGHT. destruct (Rle_dec 100 40); lra.
Defined.

(** C10: [addNode] with the empty string for text does what [addNode]
    without a text does: the node it returns and stores carries the
    placeholder of its type, 'Novo EI' for an undesirable effect and
    'Nova Causa' for a cause, and never the empty string. *)
Theorem addNode_empty_text (s : App.t) (o : Oracle) (type : NodeType)
    (x y : option number) :
  App.addNode s o type (Some ""%string) x y = App.addNode s o type None x y
  /\ Node.text (fst (App.addNode s o type (Some ""%string) x y))
     = match type with
       | UDE => "Novo EI"%string
       | CAUSE => "Nova Causa"%string
       end
  /\ App.nodes (snd (App.addNode s o type (Some ""%string) x y))
     = App.nodes s ++ [fst (App.addNode s o type (Some ""%string) x y)]
  /\ Node.text (fst (App.addNode s o type (Some ""%string) x y)) <> ""%string.
Proof.
  repeat split; try reflexivity.
  destruct type; discriminate.
Qed.

(** A text that is not empty is stored as it is. *)
Example addNode_given_text :
  Node.text (fst (App.addNode Sample.store Sample.o1 CAUSE
                              (Some "Falta de treino"%string) None None))
  = "Falta de treino"%string.
Proof. reflexivity. Qed.

End GraphStore.

(** ** Geometry *)

(** Evaluating the tests of the source on numbers that are given. *)
Ltac decide_numbers :=
  unfold number_eqb, number_ltb, Math_sign, Rabs, Rmin, Rmax;
  repeat match goal with
    | |- context [Rcase_abs ?a] => destruct (Rcase_abs a); try lra
    | |- context [Rle_dec ?a ?b] => destruct (Rle_dec a b); try lra
    | |- context [Rlt_dec ?a ?b] => destruct (Rlt_dec a b); try lra
    | |- context [Req_dec_T ?a ?b] => destruct (Req_dec_T a b); try lra
    | _ : context [Rcase_abs ?a] |- _ => destruct (Rcase_abs a); try lra
    | _ : context [Rle_dec ?a ?b] |- _ => destruct (Rle_dec a b); try lra
    | _ : context [Rlt_dec ?a ?b] |- _ => destruct (Rlt_dec a b); try lra
    | _ : context [Req_dec_T ?a ?b] |- _ => destruct (Req_dec_T a b); try lra
    end.

Section Geometry.

Lemma number_eqb_true (a b : number) : number_eqb a b = true <-> a = b.
Proof.
  unfold number_eqb. destruct (Req_dec_T a b); split; congruence.
Qed.

Lemma number_eqb_false (a b : number) : number_eqb a b = false <-> a <> b.
Proof.
  unfold number_eqb. destruct (Req_dec_T a b); split; congruence.
Qed.

Lemma number_ltb_true (a b : number) : number_ltb a b = true <-> a < b.
Proof.
  unfold number_ltb. destruct (Rlt_dec a b); split; congruence.
Qed.

Lemma number_ltb_false (a b : number) : number_ltb a b = false <-> ~ a < b.
Proof.
  unfold number_ltb. destruct (Rlt_dec a b); split; congruence.
Qed.

(** Clamping into a non-empty interval lands in it, and moves nothing
    that is already there. *)
Lemma clamp_in (lo hi v : number) :
  lo <= hi -> lo <= Rmax lo (Rmin v hi) <= hi.
Proof.
  intros H. unfold Rmax, Rmin.
  destruct (Rle_dec v hi); destruct (Rle_dec lo _); lra.
Qed.

Lemma clamp_id (lo hi v : number) :
  lo <= v <= hi -> Rmax lo (Rmin v hi) = v.
Proof.
  intros H. unfold Rmax, Rmin.
  destruct (Rle_dec v hi); destruct (Rle_dec lo _); lra.
Qed.

(** Scaling a non-zero delta by [|half / delta|] gives the half extent, up
    to the sign of the delta. *)
Lemma scale_to_half (d half : number) :
  d <> 0 -> 0 < half ->
  0 < Rabs (half / d)
  /\ (d * Rabs (half / d) = half \/ d * Rabs (half / d) = - half).
Proof.
  intros Hd Hh.
  destruct (Rlt_dec 0 d) as [Hpos | Hneg].
  - assert (0 < half / d) by (apply Rdiv_lt_0_compat; lra).
    rewrite Rabs_right by lra. split; trivial.
    left. field. lra.
  - assert (Hd' : d < 0) by lra.
    assert (half / d < 0).
    { unfold Rdiv. assert (/ d < 0) by now apply Rinv_lt_0_compat. nra. }
    rewrite Rabs_left by lra. split; [lra|].
    right. field. lra.
Qed.

(** Scaling by something no larger than [|half / delta|] stays within the
    half extent. *)
Lemma scale_within_half (d half t : number) :
  d <> 0 -> 0 < half -> 0 <= t <= Rabs (half / d) ->
  - half <= d * t <= half.
Proof.
  intros Hd Hh Ht.
  destruct (scale_to_half d half Hd Hh) as [Hpos [H | H]];
    destruct (Rlt_dec 0 d); nra.
Qed.

Lemma intersection_in_box (node : Node.t) (targetPoint : Point) :
  0 < Node.width node -> 0 < Node.height node ->
  in_box node (calculateIntersectionPointWithNodeBoundary node targetPoint)
  /\ on_side node (calculateIntersectionPointWithNodeBoundary node targetPoint).
Proof.
  intros Hw Hh. unfold calculateIntersectionPointWithNodeBoundary.
  set (cx := Node.x node + Node.width node / 2).
  set (cy := Node.y node + Node.height node / 2).
  set (dx := px targetPoint - cx). set (dy := py targetPoint - cy).
  assert (Hhw : 0 < Node.width node / 2) by lra.
  assert (Hhh : 0 < Node.height node / 2) by lra.
  unfold in_box, on_side.
  destruct (number_eqb dx 0) eqn:Ex; destruct (number_eqb dy 0) eqn:Ey; simpl.
  - subst cx cy. split; [lra | auto].
  - apply number_eqb_true in Ex. apply number_eqb_false in Ey.
    destruct (scale_to_half dy _ Ey Hhh) as [Hpos Hside].
    assert (E0 : number_eqb (Rabs (Node.height node / 2 / dy)) 0 = false)
      by (apply number_eqb_false; lra).
    rewrite E0. simpl. rewrite Ex.
    rewrite (clamp_id (Node.x node)) by (subst cx; lra).
    rewrite (clamp_id (Node.y node)) by (subst cy; lra).
    subst cx cy. split; [lra|]. right. right. lra.
  - apply number_eqb_false in Ex. apply number_eqb_true in Ey.
    destruct (scale_to_half dx _ Ex Hhw) as [Hpos Hside].
    assert (E0 : number_eqb (Rabs (Node.width node / 2 / dx)) 0 = false)
      by (apply number_eqb_false; lra).
    rewrite E0. simpl. rewrite Ey.
    rewrite (clamp_id (Node.x node)) by (subst cx; lra).
    rewrite (clamp_id (Node.y node)) by (subst cy; lra).
    subst cx cy. split; [lra|]. lra.
  - apply number_eqb_false in Ex. apply number_eqb_false in Ey.
    destruct (scale_to_half dx _ Ex Hhw) as [Hposx Hsidex].
    destruct (scale_to_half dy _ Ey Hhh) as [Hposy Hsidey].
    set (tx := Rabs (Node.width node / 2 / dx)) in *.
    set (ty := Rabs (Node.height node / 2 / dy)) in *.
    assert (Hmin : 0 < Rmin tx ty) by now apply Rmin_glb_lt.
    assert (E0 : number_eqb (Rmin tx ty) 0 = false)
      by (apply number_eqb_false; lra).
    rewrite E0. simpl.
    split.
    + split; apply clamp_in; lra.
    + assert (Hx := scale_within_half dx _ (Rmin tx ty) Ex Hhw).
      assert (Hy := scale_within_half dy _ (Rmin tx ty) Ey Hhh).
      fold tx in Hx. fold ty in Hy.
      assert (Hl := Rmin_l tx ty). assert (Hr := Rmin_r tx ty).
      specialize (Hx ltac:(lra)). specialize (Hy ltac:(lra)).
      rewrite (clamp_id (Node.x node)) by (subst cx; lra).
      rewrite (clamp_id (Node.y node)) by (subst cy; lra).
      unfold Rmin in *. destruct (Rle_dec tx ty); subst cx cy; lra.
Qed.

(** C8: for a node of positive width and height and any target point, the
    point [calculateIntersectionPointWithNodeBoundary] returns has its x
    between the left and the right side of the node's box and its y between
    the top and the bottom, and one of its coordinates is that of a side:
    the point is on the border of the box. *)
Theorem intersection_on_border (node : Node.t) (targetPoint : Point) :
  0 < Node.width node -> 0 < Node.height node ->
  let p := calculateIntersectionPointWithNodeBoundary node targetPoint in
  Node.x node <= px p <= Node.x node + Node.width node
  /\ Node.y node <= py p <= Node.y node + Node.height node
  /\ (px p = Node.x node \/ px p = Node.x node + Node.width node
      \/ py p = Node.y node \/ py p = Node.y node + Node.height node).
Proof.
  intros Hw Hh p.
  destruct (intersection_in_box node targetPoint Hw Hh) as [[Hx Hy] Hs].
  auto.
Qed.

Lemma intersection_on_border_witness :
  let p := calculateIntersectionPointWithNodeBoundary
             Sample.A (nodeCenter Sample.B) in
  0 <= px p <= 200 /\ 0 <= py p <= 70
  /\ (px p = 0 \/ px p = 200 \/ py p = 0 \/ py p = 70).
Proof.
  intros p.
  assert (H := intersection_on_border Sample.A (nodeCenter Sample.B)).
  simpl in H. specialize (H ltac:(lra) ltac:(lra)). fold p in H.
  replace (0 + 200) with 200 in H by lra.
  replace (0 + 70) with 70 in H by lra.
  exact H.
Defined.

(** The edge of scenario 1 leaves A at its bottom side and B at its top
    side. *)
Example intersection_A_towards_B :
  calculateIntersectionPointWithNodeBoundary Sample.A (nodeCenter Sample.B)
  = mkPoint 135 70.
Proof.
  unfold calculateIntersectionPointWithNodeBoundary, Sample.A, Sample.B,
    nodeCenter. simpl.
  replace (300 + 200 / 2 - (0 + 200 / 2)) with 300 by lra.
  replace (300 + 70 / 2 - (0 + 70 / 2)) with 300 by lra.
  decide_numbers; simpl; decide_numbers; f_equal; lra.
Qed.

Example intersection_B_towards_A :
  calculateIntersectionPointWithNodeBoundary Sample.B (nodeCenter Sample.A)
  = mkPoint 365 300.
Proof.
  unfold calculateIntersectionPointWithNodeBoundary, Sample.A, Sample.B,
    nodeCenter. simpl.
  replace (0 + 200 / 2 - (300 + 200 / 2)) with (-300) by lra.
  replace (0 + 70 / 2 - (300 + 70 / 2)) with (-300) by lra.
  decide_numbers; simpl; decide_numbers; f_equal; lra.
Qed.

(** C9: aimed at the node's own center, or at any point for which both
    deltas are zero, [calculateIntersectionPointWithNodeBoundary] returns
    the middle of the bottom side of the box, [(x + width / 2, y + height)],
    whatever the node; being a function of the node and the target, it
    returns the same point each time. *)
Theorem intersection_at_center (node : Node.t) :
  calculateIntersectionPointWithNodeBoundary node (nodeCenter node)
  = mkPoint (Node.x node + Node.width node / 2) (Node.y node + Node.height node)
  /\ (forall targetPoint,
        px targetPoint - (Node.x node + Node.width node / 2) = 0 ->
        py targetPoint - (Node.y node + Node.height node / 2) = 0 ->
        calculateIntersectionPointWithNodeBoundary node targetPoint
        = mkPoint (Node.x node + Node.width node / 2)
                  (Node.y node + Node.height node))
  /\ (forall targetPoint targetPoint',
        targetPoint = targetPoint' ->
        calculateIntersectionPointWithNodeBoundary node targetPoint
        = calculateIntersectionPointWithNodeBoundary node targetPoint').
Proof.
  assert (H : forall targetPoint,
             px targetPoint - (Node.x node + Node.width node / 2) = 0 ->
             py targetPoint - (Node.y node + Node.height node / 2) = 0 ->
             calculateIntersectionPointWithNodeBoundary node targetPoint
             = mkPoint (Node.x node + Node.width node / 2)
                       (Node.y node + Node.height node)).
  { intros t Hx Hy. unfold calculateIntersectionPointWithNodeBoundary.
    rewrite Hx, Hy.
    now rewrite (proj2 (number_eqb_true 0 0) eq_refl). }
  split; [|split].
  - apply H; simpl; lra.
  - exact H.
  - now intros t t' ->.
Qed.

Lemma intersection_at_center_witness :
  calculateIntersectionPointWithNodeBoundary Sample.A (mkPoint 100 35)
  = mkPoint (0 + 200 / 2) (0 + 70).
Proof.
  destruct (intersection_at_center Sample.A) as [_ [H _]].
  apply (H (mkPoint 100 35)); simpl; lra.
Defined.

End Geometry.

(** ** Connecting two nodes *)

Section Connecting.

(** C1, as the code has it: while an edge is pending, the press on the
    target port of another node calls [addEdge] from the source of the
    pending edge to that node whether the node is the hot target or not,
    and ends the gesture; so the edge is created unless the store already
    has it.  It is the release on the target port of another node that
    looks at the hot target: it calls [addEdge] only when that node is the
    hot target, leaves the store alone otherwise, and ends the gesture in
    both cases. *)
Theorem port_press_and_release (u : UI.t) (o : Oracle)
    (paneRect : option Rect) (e : MouseEvent) (nodeId : string)
    (pendingEdge : PendingEdge.t) :
  Tree.pendingEdge (UI.tree u) = Some pendingEdge ->
  PendingEdge.sourceId pendingEdge <> nodeId ->
  let pressed :=
    CurrentRealityTree.handlePortMouseDown u o paneRect e nodeId target in
  let released := CurrentRealityTree.handlePortMouseUp u o nodeId target in
  UI.app pressed
  = App.addEdge (UI.app u) o (PendingEdge.sourceId pendingEdge) nodeId
  /\ ((forall x, In x (App.edges (UI.app u)) ->
         ~ (Edge.sourceId x = PendingEdge.sourceId pendingEdge
            /\ Edge.targetId x = nodeId)) ->
      App.edges (UI.app pressed)
      = App.edges (UI.app u)
        ++ [Edge.mk (generateId o) (PendingEdge.sourceId pendingEdge) nodeId])
  /\ Tree.pendingEdge (UI.tree pressed) = None
  /\ Tree.potentialTargetNodeId (UI.tree pressed) = None
  /\ (Tree.potentialTargetNodeId (UI.tree u) = Some nodeId ->
      UI.app released
      = App.addEdge (UI.app u) o (PendingEdge.sourceId pendingEdge) nodeId)
  /\ (Tree.potentialTargetNodeId (UI.tree u) <> Some nodeId ->
      UI.app released = UI.app u)
  /\ Tree.pendingEdge (UI.tree released) = None
  /\ Tree.potentialTargetNodeId (UI.tree released) = None.
Proof.
  intros Hp Hk pressed released. subst pressed released.
  unfold CurrentRealityTree.handlePortMouseDown,
    CurrentRealityTree.handlePortMouseUp.
  rewrite Hp. apply String.eqb_neq in Hk. rewrite Hk. simpl.
  split; [reflexivity|]. split.
  { intros Hnew. rewrite addEdge_accepted; trivial.
    - now apply String.eqb_neq.
    - now apply has_edge_false. }
  split; [reflexivity|]. split; [reflexivity|].
  split; [|split; [|split; reflexivity]].
  - intros Hhot. apply opt_is_true in Hhot. now rewrite Hhot.
  - intros Hcold.
    destruct (App.opt_is (Tree.potentialTargetNodeId (UI.tree u)) nodeId) eqn:E;
      trivial.
    apply opt_is_true in E. contradiction.
Qed.

Lemma port_press_and_release_witness :
  App.edges
    (UI.app (CurrentRealityTree.handlePortMouseDown Sample.connecting_from_B
               Sample.o2 (Some Sample.pane) (mkMouse 100 0) "A" target))
  = [Edge.mk "id_2" "B" "A"]
  /\ UI.app (CurrentRealityTree.handlePortMouseUp Sample.connecting_from_B
               Sample.o2 "A" target)
     = UI.app Sample.connecting_from_B.
Proof.
  destruct (port_press_and_release Sample.connecting_from_B Sample.o2
              (Some Sample.pane) (mkMouse 100 0) "A"
              (PendingEdge.mk "B" (400 - 0) (370 - 0) (400 - 0) (370 - 0)))
    as [_ [Hpress [_ [_ [_ [Hrelease _]]]]]].
  - reflexivity.
  - discriminate.
  - split.
    + apply Hpress. intros x [].
    + apply Hrelease. discriminate.
Defined.

(** C1, as the specification has it, fails: with an edge pending from B
    and no hot target, the press on the target port of A creates the edge
    from B to A. *)
Lemma press_commits_without_hot_target :
  Tree.pendingEdge (UI.tree Sample.connecting_from_B) <> None
  /\ Tree.potentialTargetNodeId (UI.tree Sample.connecting_from_B) = None
  /\ CurrentRealityTree.isHotTargetForConnection Sample.connecting_from_B
       Sample.A = false
  /\ App.edges (UI.app Sample.connecting_from_B) = []
  /\ App.edges
       (UI.app (CurrentRealityTree.handlePortMouseDown
                  Sample.connecting_from_B Sample.o2 (Some Sample.pane)
                  (mkMouse 100 0) "A" target))
     = [Edge.mk "id_2" "B" "A"].
Proof.
  split; [discriminate | repeat split].
Qed.

End Connecting.

(** ** The hot target *)

Section HotTarget.

Variables (sourceId : string) (mouseX mouseY : number).

Lemma findTarget_takes (node : Node.t) (rest : list Node.t) :
  CurrentRealityTree.accepts sourceId mouseX mouseY node ->
  CurrentRealityTree.findTarget (node :: rest) sourceId mouseX mouseY
  = Some (Node.id node).
Proof.
  intros [Hid Hnear]. simpl.
  apply String.eqb_neq in Hid. rewrite Hid.
  apply number_ltb_true in Hnear. now rewrite Hnear.
Qed.

Lemma findTarget_skips (node : Node.t) (rest : list Node.t) :
  ~ CurrentRealityTree.accepts sourceId mouseX mouseY node ->
  CurrentRealityTree.findTarget (node :: rest) sourceId mouseX mouseY
  = CurrentRealityTree.findTarget rest sourceId mouseX mouseY.
Proof.
  intros Hno. simpl.
  destruct (Node.id node =? sourceId)%string eqn:Hid; trivial.
  destruct (number_ltb _ _) eqn:Hnear; trivial.
  destruct Hno. split.
  - now apply String.eqb_neq.
  - now apply number_ltb_true.
Qed.

Lemma accepts_or_not (node : Node.t) :
  CurrentRealityTree.accepts sourceId mouseX mouseY node
  \/ ~ CurrentRealityTree.accepts sourceId mouseX mouseY node.
Proof.
  unfold CurrentRealityTree.accepts.
  destruct (String.eqb_spec (Node.id node) sourceId);
    destruct (Rlt_dec (CurrentRealityTree.distanceToPort mouseX mouseY node)
                      (PORT_SIZE * 2.5)); tauto.
Qed.

(** The loop stops at the first node it accepts. *)
Lemma findTarget_first (nodes : list Node.t) (k : string) :
  CurrentRealityTree.findTarget nodes sourceId mouseX mouseY = Some k
  <-> exists before node after,
        nodes = before ++ node :: after
        /\ Node.id node = k
        /\ CurrentRealityTree.accepts sourceId mouseX mouseY node
        /\ forall m, In m before
                     -> ~ CurrentRealityTree.accepts sourceId mouseX mouseY m.
Proof.
  induction nodes as [|n ns IH].
  - split; [discriminate|].
    intros [before [node [after [H _]]]]. now destruct before.
  - destruct (accepts_or_not n) as [Hyes | Hno].
    + rewrite findTarget_takes by trivial. split.
      * intros [= <-]. exists [], n, ns.
        split; [reflexivity | split; [reflexivity | split; [assumption|]]].
        intros m [].
      * intros [before [node [after [Hl [Hk [Hacc Hbefore]]]]]].
        destruct before as [|b before]; simpl in Hl.
        -- injection Hl as -> _. now subst k.
        -- injection Hl as Hb _. destruct (Hbefore n); simpl; auto.
    + rewrite findTarget_skips by trivial. rewrite IH. split.
      * intros [before [node [after [Hl [Hk [Hacc Hbefore]]]]]].
        exists (n :: before), node, after. subst ns.
        split; [reflexivity | split; [assumption | split; [assumption|]]].
        intros m [<- | Hm]; auto.
      * intros [before [node [after [Hl [Hk [Hacc Hbefore]]]]]].
        destruct before as [|b before]; simpl in Hl.
        -- injection Hl as -> _. contradiction.
        -- injection Hl as -> ->. exists before, node, after.
           split; [reflexivity | split; [assumption | split; [assumption|]]].
           intros m Hm. apply Hbefore. now right.
Qed.

(** It ends without a target exactly when it accepts no node. *)
Lemma findTarget_none (nodes : list Node.t) :
  CurrentRealityTree.findTarget nodes sourceId mouseX mouseY = None
  <-> forall node, In node nodes
                   -> ~ CurrentRealityTree.accepts sourceId mouseX mouseY node.
Proof.
  induction nodes as [|n ns IH].
  - split; [intros _ node [] | reflexivity].
  - destruct (accepts_or_not n) as [Hyes | Hno].
    + rewrite findTarget_takes by trivial. split; [discriminate|].
      intros H. destruct (H n); simpl; auto.
    + rewrite findTarget_skips by trivial. rewrite IH. split.
      * intros H node [<- | Hin]; auto.
      * intros H node Hin. apply H. now right.
Qed.

End HotTarget.

(** The distance is below the threshold exactly when its square is below
    625, the square of 25. *)
Lemma near_iff_square (mouseX mouseY : number) (node : Node.t) :
  CurrentRealityTree.distanceToPort mouseX mouseY node < PORT_SIZE * 2.5
  <-> (mouseX - (Node.x node + Node.width node / 2)) ^ 2
      + (mouseY - (Node.y node + PORT_SIZE / 2)) ^ 2 < 625.
Proof.
  unfold CurrentRealityTree.distanceToPort, PORT_SIZE.
  set (d2 := _ + _).
  assert (Hd : 0 <= d2)
    by (subst d2; apply Rplus_le_le_0_compat; apply pow2_ge_0).
  replace (10 * 2.5) with 25 by lra.
  replace 625 with (25 * 25) by lra.
  rewrite <- (sqrt_square 25) at 1 by lra.
  split; intros H.
  - apply sqrt_lt_0_alt in H. exact H.
  - apply sqrt_lt_1_alt. lra.
Qed.

Section PointerMove.

(** C6: while an edge is pending, a pointer move over the pane sets the
    hot target to the id of the first node of the list, in list order,
    that is not the source of the pending edge and whose hover point, the
    top-center port taken at [(x + width / 2, y + PORT_SIZE / 2)], is at a
    Euclidean distance from the pointer below 2.5 port diameters (25);
    it clears the hot target when there is no such node.  The hot target
    is one id at most, it is never the source, the pending edge follows
    the pointer, and the store does not change. *)
Theorem hover_target_spec (u : UI.t) (r : Rect) (e : MouseEvent)
    (pendingEdge : PendingEdge.t) :
  Tree.pendingEdge (UI.tree u) = Some pendingEdge ->
  let mouseX := clientX e - left r in
  let mouseY := clientY e - top r in
  let u' := CurrentRealityTree.handleMouseMoveInPane u (Some r) e in
  let accepted node :=
    Node.id node <> PendingEdge.sourceId pendingEdge
    /\ sqrt ((mouseX - (Node.x node + Node.width node / 2)) ^ 2
             + (mouseY - (Node.y node + PORT_SIZE / 2)) ^ 2)
       < PORT_SIZE * 2.5 in
  PORT_SIZE * 2.5 = 25
  /\ (forall k,
        Tree.potentialTargetNodeId (UI.tree u') = Some k
        <-> exists before node after,
              App.nodes (UI.app u) = before ++ node :: after
              /\ Node.id node = k
              /\ accepted node
              /\ forall m, In m before -> ~ accepted m)
  /\ (Tree.potentialTargetNodeId (UI.tree u') = None
      <-> forall node, In node (App.nodes (UI.app u)) -> ~ accepted node)
  /\ (forall n1 n2,
        CurrentRealityTree.isHotTargetForConnection u' n1 = true ->
        CurrentRealityTree.isHotTargetForConnection u' n2 = true ->
        Node.id n1 = Node.id n2)
  /\ (forall node,
        CurrentRealityTree.isHotTargetForConnection u' node = true ->
        Node.id node <> PendingEdge.sourceId pendingEdge)
  /\ Tree.pendingEdge (UI.tree u')
     = Some (PendingEdge.mk (PendingEdge.sourceId pendingEdge)
               (PendingEdge.sourceX pendingEdge)
               (PendingEdge.sourceY pendingEdge) mouseX mouseY)
  /\ UI.app u' = UI.app u.
Proof.
  intros Hp mouseX mouseY u' accepted. subst u'.
  unfold CurrentRealityTree.handleMouseMoveInPane. rewrite Hp. simpl.
  rewrite Hp. fold mouseX mouseY.
  split; [unfold PORT_SIZE; lra|].
  split; [intros k; apply findTarget_first|].
  split; [apply findTarget_none|].
  split; [|split; [|split; reflexivity]].
  - unfold CurrentRealityTree.isHotTargetForConnection. simpl.
    intros n1 n2 H1 H2.
    apply andb_true_iff in H1. apply andb_true_iff in H2.
    destruct H1 as [H1 _]. destruct H2 as [H2 _].
    apply opt_is_true in H1. apply opt_is_true in H2. congruence.
  - unfold CurrentRealityTree.isHotTargetForConnection. simpl.
    rewrite Hp. simpl.
    intros node H. apply andb_true_iff in H. destruct H as [_ H].
    apply negb_true_iff in H. apply String.eqb_neq in H. congruence.
Qed.

(** Scenario 2: with an edge pending from B, the pointer comes to the
    hover point of A, which becomes the hot target. *)
Lemma hover_target_spec_witness :
  Tree.potentialTargetNodeId
    (UI.tree (CurrentRealityTree.handleMouseMoveInPane
                Sample.connecting_from_B (Some Sample.pane) (mkMouse 100 5)))
  = Some "A"%string.
Proof.
  destruct (hover_target_spec Sample.connecting_from_B Sample.pane
              (mkMouse 100 5)
              (PendingEdge.mk "B" (400 - 0) (370 - 0) (400 - 0) (370 - 0))
              eq_refl) as [_ [H _]].
  apply H. exists [], Sample.A, [Sample.B].
  split; [reflexivity | split; [reflexivity | split; [|intros m []]]].
  split; [discriminate|].
  apply (near_iff_square (100 - 0) (5 - 0) Sample.A).
  unfold PORT_SIZE. simpl. lra.
Defined.

(** The threshold is strict: at 25 from the hover point of A, and far from
    B, no node becomes the hot target. *)
Example hover_at_threshold :
  Tree.potentialTargetNodeId
    (UI.tree (CurrentRealityTree.handleMouseMoveInPane
                Sample.connecting_from_B (Some Sample.pane) (mkMouse 125 5)))
  = None.
Proof.
  unfold CurrentRealityTree.handleMouseMoveInPane.
  cbn -[CurrentRealityTree.findTarget].
  rewrite findTarget_skips.
  - reflexivity.
  - intros [_ H].
    apply (near_iff_square (125 - 0) (5 - 0) Sample.A) in H.
    unfold PORT_SIZE in H. simpl in H. lra.
Qed.

(** The source of the pending edge is passed over even when the pointer is
    on its hover point. *)
Example hover_over_source :
  Tree.potentialTargetNodeId
    (UI.tree (CurrentRealityTree.handleMouseMoveInPane
                Sample.connecting_from_B (Some Sample.pane) (mkMouse 400 305)))
  = None.
Proof.
  unfold CurrentRealityTree.handleMouseMoveInPane.
  cbn -[CurrentRealityTree.findTarget].
  rewrite findTarget_skips.
  - reflexivity.
  - intros [_ H].
    apply (near_iff_square (400 - 0) (305 - 0) Sample.A) in H.
    unfold PORT_SIZE in H. simpl in H. lra.
Qed.

(** Scenario 2, continued: the release on the target port of A, which is
    the hot target, creates the edge from B to A and ends the gesture. *)
Example release_on_hot_target :
  let moved := CurrentRealityTree.handleMouseMoveInPane
                 Sample.connecting_from_B (Some Sample.pane) (mkMouse 100 5) in
  let released := CurrentRealityTree.handlePortMouseUp moved Sample.o2 "A"
                    target in
  App.edges (UI.app released) = [Edge.mk "id_2" "B" "A"]
  /\ Tree.pendingEdge (UI.tree released) = None
  /\ Tree.potentialTargetNodeId (UI.tree released) = None.
Proof.
  intros moved released. subst released.
  assert (Hhot : Tree.potentialTargetNodeId (UI.tree moved) = Some "A"%string).
  { unfold moved, CurrentRealityTree.handleMouseMoveInPane.
    cbn -[CurrentRealityTree.findTarget].
    rewrite findTarget_takes; [reflexivity|].
    split; [discriminate|].
    apply (near_iff_square (100 - 0) (5 - 0) Sample.A).
    unfold PORT_SIZE. simpl. lra. }
  unfold CurrentRealityTree.handlePortMouseUp.
  rewrite Hhot.
  replace (Tree.pendingEdge (UI.tree moved))
    with (Some (PendingEdge.mk "B" (400 - 0) (370 - 0) (100 - 0) (5 - 0)))
    by reflexivity.
  simpl. repeat split.
Qed.

End PointerMove.

(** ** The Escape key and the gestures in flight *)

Section Escape.

Lemma mounted_not_resizing (ns : list Node.t) (k : string) :
  Local.isResizing (UI.mounted ns k) = false.
Proof. unfold UI.mounted. now destruct (find _ ns). Qed.

Lemma onLocal_keeps_resizing (u : UI.t) (k k' : string)
    (f : Local.t -> Local.t) :
  (forall l, Local.isResizing (f l) = Local.isResizing l) ->
  (forall l, Local.resizeStartInfo (f l) = Local.resizeStartInfo l) ->
  Local.isResizing (UI.local (UI.onLocal k f u) k')
  = Local.isResizing (UI.local u k')
  /\ Local.resizeStartInfo (UI.local (UI.onLocal k f u) k')
     = Local.resizeStartInfo (UI.local u k').
Proof.
  intros H1 H2. simpl. destruct (k' =? k)%string; auto.
Qed.

Lemma handleKeyDown_Escape (u : UI.t) :
  UI.app (CurrentRealityTree.handleKeyDown u "Escape") = UI.app u
  /\ UI.local (CurrentRealityTree.handleKeyDown u "Escape") = UI.local u
  /\ Tree.pendingEdge (UI.tree (CurrentRealityTree.handleKeyDown u "Escape"))
     = None
  /\ Tree.draggingNode (UI.tree (CurrentRealityTree.handleKeyDown u "Escape"))
     = Tree.draggingNode (UI.tree u)
  /\ Tree.dragOffset (UI.tree (CurrentRealityTree.handleKeyDown u "Escape"))
     = Tree.dragOffset (UI.tree u)
  /\ Tree.selectedEdgeId (UI.tree (CurrentRealityTree.handleKeyDown u "Escape"))
     = Tree.selectedEdgeId (UI.tree u)
  /\ (Tree.pendingEdge (UI.tree u) <> None ->
      Tree.potentialTargetNodeId
        (UI.tree (CurrentRealityTree.handleKeyDown u "Escape")) = None).
Proof.
  unfold CurrentRealityTree.handleKeyDown. simpl.
  destruct (Tree.pendingEdge (UI.tree u)) eqn:E; simpl; rewrite ?E;
    repeat split; trivial.
  intros H. now destruct H.
Qed.

(** C5, as the code has it: a press of Escape ends the connect gesture, if
    one is in flight: the pending edge is discarded and no node is shown as
    hot target any more.  It leaves a drag and a resize as they are, and it
    never changes the store.  So the editor is idle after it when neither a
    drag nor a resize was in flight. *)
Theorem escape_cancels_connect (u : UI.t) (focus : option Node.t) :
  UI.app (pressEscape u focus) = UI.app u
  /\ Tree.pendingEdge (UI.tree (pressEscape u focus)) = None
  /\ (connecting u ->
      Tree.potentialTargetNodeId (UI.tree (pressEscape u focus)) = None)
  /\ (forall node,
        CurrentRealityTree.isHotTargetForConnection (pressEscape u focus) node
        = false)
  /\ Tree.draggingNode (UI.tree (pressEscape u focus))
     = Tree.draggingNode (UI.tree u)
  /\ Tree.dragOffset (UI.tree (pressEscape u focus))
     = Tree.dragOffset (UI.tree u)
  /\ (forall k,
        Local.isResizing (UI.local (pressEscape u focus) k)
        = Local.isResizing (UI.local u k)
        /\ Local.resizeStartInfo (UI.local (pressEscape u focus) k)
           = Local.resizeStartInfo (UI.local u k))
  /\ (~ dragging u -> ~ resizing u -> Idle (pressEscape u focus)).
Proof.
  unfold pressEscape.
  set (v := match focus with
            | Some node => NodeComponent.handleKeyDown_Escape u node
            | None => u
            end).
  assert (Hv : UI.app v = UI.app u /\ UI.tree v = UI.tree u
               /\ forall k,
                    Local.isResizing (UI.local v k)
                    = Local.isResizing (UI.local u k)
                    /\ Local.resizeStartInfo (UI.local v k)
                       = Local.resizeStartInfo (UI.local u k)).
  { subst v. destruct focus as [node|]; [|auto].
    split; [reflexivity | split; [reflexivity|]].
    intros k. now apply onLocal_keeps_resizing. }
  destruct Hv as [Happ [Htree Hlocal]].
  destruct (handleKeyDown_Escape v) as [Ea [El [Ep [Ed [Eo [_ Eh]]]]]].
  assert (Hres : forall k,
             Local.isResizing
               (UI.local (CurrentRealityTree.handleKeyDown v "Escape") k)
             = Local.isResizing (UI.local u k)
             /\ Local.resizeStartInfo
                  (UI.local (CurrentRealityTree.handleKeyDown v "Escape") k)
                = Local.resizeStartInfo (UI.local u k))
    by (intros k; rewrite El; apply Hlocal).
  split; [congruence|]. split; [exact Ep|].
  split; [unfold connecting; rewrite <- Htree; exact Eh|].
  split.
  { intros node. unfold CurrentRealityTree.isHotTargetForConnection.
    rewrite Ep. apply andb_false_r. }
  split; [congruence|]. split; [congruence|]. split; [exact Hres|].
  intros Hd Hr. unfold Idle, dragging, resizing, connecting.
  split; [|split].
  - rewrite Ed, Htree. exact Hd.
  - intros [k Hk]. apply Hr. exists k. now rewrite <- (proj1 (Hres k)).
  - now rewrite Ep.
Qed.

(** Scenario 4: Escape in the middle of a connect gesture. *)
Lemma escape_cancels_connect_witness :
  Idle (pressEscape Sample.connecting_from_B None)
  /\ App.edges (UI.app (pressEscape Sample.connecting_from_B None)) = [].
Proof.
  destruct (escape_cancels_connect Sample.connecting_from_B None)
    as [Happ [_ [_ [_ [_ [_ [_ Hidle]]]]]]].
  split.
  - apply Hidle.
    + intros H. now apply H.
    + intros [k Hk]. simpl in Hk.
      rewrite mounted_not_resizing in Hk. discriminate.
  - now rewrite Happ.
Defined.

(** C5, as the specification has it, fails: Escape pressed while A is
    dragged, and nothing else is in flight, leaves A dragged; Escape
    pressed while A is resized leaves A resized.  The editor is not idle
    after either. *)
Lemma escape_leaves_drag_and_resize :
  (dragging Sample.dragging_A
   /\ ~ resizing Sample.dragging_A /\ ~ connecting Sample.dragging_A
   /\ Tree.draggingNode (UI.tree (pressEscape Sample.dragging_A None))
      = Some "A"%string
   /\ ~ Idle (pressEscape Sample.dragging_A None))
  /\ (resizing Sample.resizing_A
      /\ ~ dragging Sample.resizing_A /\ ~ connecting Sample.resizing_A
      /\ Local.isResizing (UI.local (pressEscape Sample.resizing_A None) "A")
         = true
      /\ ~ Idle (pressEscape Sample.resizing_A None)).
Proof.
  split.
  - split; [discriminate|].
    split.
    { intros [k Hk]. simpl in Hk. rewrite mounted_not_resizing in Hk.
      discriminate. }
    split; [intros H; now apply H|].
    split; [reflexivity|].
    intros [H _]. apply H. discriminate.
  - split; [exists "A"%string; reflexivity|].
    split; [intros H; now apply H|].
    split; [intros H; now apply H|].
    split; [reflexivity|].
    intros [_ [H _]]. apply H. exists "A"%string. reflexivity.
Qed.

End Escape.

(** ** The scenarios of the specification *)

Section Scenarios.

(** Scenario 1: the edge from B to A is the only edge; deleting A removes
    it and leaves B. *)
Example scenario_edge_then_delete :
  let linked := App.addEdge Sample.store Sample.o1 "B" "A" in
  App.edges linked = [Edge.mk "id_1" "B" "A"]
  /\ App.edges (App.deleteNode linked "A") = []
  /\ App.nodes (App.deleteNode linked "A") = [Sample.B].
Proof. repeat split. Qed.

(** Scenario 3: the node at (10, 10) is taken at (15, 12) and the pointer
    goes to (115, 112); the node is at (110, 110), and the release ends the
    drag. *)
Example scenario_drag :
  let taken := NodeComponent.onMouseDown Sample.ui_E (Some Sample.pane)
                 (mkMouse 15 12) Sample.E true in
  let moved := CurrentRealityTree.globalMouseMove taken (Some Sample.pane)
                 (mkMouse 115 112) in
  Tree.dragOffset (UI.tree taken) = mkPoint (15 - 0 - 10) (12 - 0 - 10)
  /\ map Node.x (App.nodes (UI.app moved)) = [110]
  /\ map Node.y (App.nodes (UI.app moved)) = [110]
  /\ Tree.draggingNode (UI.tree (CurrentRealityTree.globalMouseUp moved)) = None.
Proof.
  intros taken moved.
  split; [reflexivity|]. split; [|split; [|reflexivity]].
  - simpl. f_equal. lra.
  - simpl. f_equal. lra.
Qed.

(** A resize never goes below 60 by 40: the handle of A is taken at
    (200, 70) and the pointer goes to the origin. *)
Example scenario_resize :
  let moved := NodeComponent.handleGlobalMouseMove Sample.resizing_A
                 (mkMouse 0 0) Sample.A in
  map Node.width (App.nodes (UI.app moved)) = [60; 200]
  /\ map Node.height (App.nodes (UI.app moved)) = [40; 70].
Proof.
  intros moved. split; simpl; unfold MIN_NODE_WIDTH, MIN_NODE_HEIGHT;
    f_equal; decide_numbers.
Qed.

(** The release over the empty canvas, with no hot target, discards the
    pending edge and leaves the store as it was. *)
Example release_over_canvas :
  let released := CurrentRealityTree.handleMouseUpInPane
                    Sample.connecting_from_B false in
  Tree.pendingEdge (UI.tree released) = None
  /\ UI.app released = UI.app Sample.connecting_from_B
  /\ Idle released.
Proof.
  intros released. split; [reflexivity | split; [reflexivity|]].
  split; [|split].
  - intros H. now apply H.
  - intros [k Hk]. simpl in Hk. rewrite mounted_not_resizing in Hk.
    discriminate.
  - intros H. now apply H.
Qed.

(** With an edge pending from B and the pointer on the target port of A,
    the hot target is C, whose hover point is near and which comes first in
    the list; the press on the port of A creates the edge from B to A. *)
Example press_commits_while_another_node_is_hot :
  let pending := CurrentRealityTree.handlePortMouseDown Sample.crowded
                   Sample.o1 (Some Sample.pane) (mkMouse 400 370) "B" source in
  let moved := CurrentRealityTree.handleMouseMoveInPane pending
                 (Some Sample.pane) (mkMouse 100 0) in
  let pressed := CurrentRealityTree.handlePortMouseDown moved Sample.o2
                   (Some Sample.pane) (mkMouse 100 0) "A" target in
  Tree.potentialTargetNodeId (UI.tree moved) = Some "C"%string
  /\ CurrentRealityTree.isHotTargetForConnection moved Sample.A = false
  /\ App.edges (UI.app pressed) = [Edge.mk "id_2" "B" "A"].
Proof.
  intros pending moved pressed.
  assert (Hhot : Tree.potentialTargetNodeId (UI.tree moved) = Some "C"%string).
  { unfold moved, CurrentRealityTree.handleMouseMoveInPane.
    cbn -[CurrentRealityTree.findTarget].
    rewrite findTarget_takes; [reflexivity|].
    split; [discriminate|].
    apply (near_iff_square (100 - 0) (0 - 0) Sample.C).
    unfold PORT_SIZE. simpl. lra. }
  split; [exact Hhot|]. split.
  - unfold CurrentRealityTree.isHotTargetForConnection. now rewrite Hhot.
  - reflexivity.
Qed.

End Scenarios.

(** * Further properties of the store *)

Section StoreInvariants.

Lemma count_edges_filter_le (p : Edge.t -> bool) (es : list Edge.t)
    (a b : string) :
  (App.count_edges (filter p es) a b <= App.count_edges es a b)%nat.
Proof.
  unfold App.count_edges. induction es as [|e es IH]; simpl; [lia|].
  destruct (p e); simpl;
    destruct ((Edge.sourceId e =? a)%string && (Edge.targetId e =? b)%string);
    simpl; lia.
Qed.

Lemma count_edges_one (g a b a' b' : string) :
  App.count_edges [Edge.mk g a b] a' b'
  = if ((a =? a')%string && (b =? b')%string) then 1%nat else 0%nat.
Proof.
  unfold App.count_edges. simpl.
  now destruct ((a =? a')%string && (b =? b')%string).
Qed.

Lemma simple_sub (s s' : App.t) :
  (forall e, In e (App.edges s') -> In e (App.edges s)) ->
  (forall a b, (App.count_edges (App.edges s') a b
                <= App.count_edges (App.edges s) a b)%nat) ->
  App.simple s -> App.simple s'.
Proof.
  intros Hin Hle [Hloop Hdup]. split.
  - intros e He. apply Hloop. now apply Hin.
  - intros a b. specialize (Hdup a b). specialize (Hle a b). lia.
Qed.

Lemma simple_filter (p : Edge.t -> bool) (s : App.t) :
  App.simple s -> App.simple (App.setEdges (filter p) s).
Proof.
  apply simple_sub; simpl.
  - intros e He. now apply filter_In in He.
  - intros a b. apply count_edges_filter_le.
Qed.

Lemma exec_simple (s : App.t) (c : App.command) :
  App.simple s -> App.simple (App.exec s c).
Proof.
  intros H. destruct c; simpl; trivial.
  - revert H. apply simple_sub; rewrite deleteNode_edges.
    + intros e He. now apply filter_In in He.
    + intros a b. apply count_edges_filter_le.
  - unfold App.addEdge.
    destruct (sourceId =? targetId)%string eqn:Eloop; simpl; trivial.
    destruct (App.has_edge (App.edges s) sourceId targetId) eqn:Edup; trivial.
    destruct H as [Hloop Hdup]. split; simpl.
    + intros e He. apply in_app_or in He. destruct He as [He | [<- | []]].
      * now apply Hloop.
      * simpl. now apply String.eqb_neq.
    + intros a b. rewrite count_edges_app, count_edges_one.
      destruct ((sourceId =? a)%string && (targetId =? b)%string) eqn:E.
      * apply andb_true_iff in E. destruct E as [Ea Eb].
        apply String.eqb_eq in Ea. apply String.eqb_eq in Eb. subst a b.
        rewrite count_edges_0; trivial.
      * specialize (Hdup a b). lia.
  - now apply simple_filter.
Qed.

(** X1: every command of the store keeps the edge list free of edges from
    a node to itself and of two edges between the same ordered pair of
    nodes; so every store reached from the empty one has neither. *)
Theorem store_stays_simple :
  (forall s c, App.simple s -> App.simple (App.exec s c))
  /\ (forall cs, App.simple (App.run App.initial cs))
  /\ (forall cs e, In e (App.edges (App.run App.initial cs)) ->
        Edge.sourceId e <> Edge.targetId e)
  /\ (forall cs e, In e (App.edges (App.run App.initial cs)) ->
        App.count_edges (App.edges (App.run App.initial cs))
                        (Edge.sourceId e) (Edge.targetId e) = 1%nat).
Proof.
  assert (Hrun : forall cs s, App.simple s -> App.simple (App.run s cs)).
  { induction cs as [|c cs IH]; simpl; intros s H; trivial.
    apply IH. now apply exec_simple. }
  assert (Hinit : App.simple App.initial).
  { split; [intros e [] | intros a b; cbv; lia]. }
  split; [exact exec_simple|]. split; [intros cs; now apply Hrun|].
  split.
  - intros cs. apply (Hrun cs App.initial Hinit).
  - intros cs e He. destruct (Hrun cs App.initial Hinit) as [_ Hdup].
    specialize (Hdup (Edge.sourceId e) (Edge.targetId e)).
    assert (App.has_edge (App.edges (App.run App.initial cs))
                         (Edge.sourceId e) (Edge.targetId e) = true)
      by (apply has_edge_true; eauto).
    destruct (App.count_edges _ _ _) as [|[|n]] eqn:E; [|reflexivity|lia].
    assert (Hin : In e (filter (fun x => (Edge.sourceId x =? Edge.sourceId e)%string
                                         && (Edge.targetId x =? Edge.targetId e)%string)
                               (App.edges (App.run App.initial cs)))).
    { apply filter_In. split; trivial. now rewrite !String.eqb_refl. }
    unfold App.count_edges in E.
    destruct (filter _ _); [contradiction | discriminate].
Qed.

Lemma store_stays_simple_witness :
  App.simple (App.exec Sample.store (App.AddEdge Sample.o1 "B" "A")).
Proof.
  apply (proj1 store_stays_simple).
  split; [intros e [] | intros a b; cbv; lia].
Defined.

Lemma exec_sizes_ok (s : App.t) (c : App.command) :
  App.sizes_ok s -> App.sizes_ok (App.exec s c).
Proof.
  intros [Hw [Hh Hn]].
  assert (Hmap : forall f : Node.t -> Node.t,
             (forall n, MIN_NODE_WIDTH <= Node.width n ->
                        MIN_NODE_WIDTH <= Node.width (f n)) ->
             (forall n, MIN_NODE_HEIGHT <= Node.height n ->
                        MIN_NODE_HEIGHT <= Node.height (f n)) ->
             App.sizes_ok (App.setNodes (map f) s)).
  { intros f Hfw Hfh. split; [exact Hw | split; [exact Hh|]].
    intros n Hin. simpl in Hin. apply in_map_iff in Hin.
    destruct Hin as [m [<- Hm]]. destruct (Hn m Hm). split; auto. }
  destruct c; simpl.
  - split; [exact Hw | split; [exact Hh|]]. simpl.
    intros n Hin. apply in_app_or in Hin. destruct Hin as [Hin | [<- | []]]; auto.
  - apply Hmap; intros n; now destruct (Node.id n =? nodeId)%string.
  - apply Hmap; intros n; now destruct (Node.id n =? nodeId)%string.
  - apply Hmap; intros n Hle; destruct (Node.id n =? nodeId)%string; simpl;
      trivial; apply Rmax_l.
  - split; [apply Rmax_l | split; [apply Rmax_l | exact Hn]].
  - unfold App.deleteNode.
    destruct (App.opt_is _ _); (split; [exact Hw | split; [exact Hh|]]);
      simpl; intros n Hin; apply filter_In in Hin; now apply Hn.
  - unfold App.addEdge.
    destruct (_ || _); split; (exact Hw || (split; [exact Hh | exact Hn])).
  - split; [exact Hw | split; [exact Hh | exact Hn]].
Qed.

Lemma run_sizes_ok (cs : list App.command) (s : App.t) :
  App.sizes_ok s -> App.sizes_ok (App.run s cs).
Proof.
  revert s. induction cs as [|c cs IH]; simpl; intros s H; trivial.
  apply IH. now apply exec_sizes_ok.
Qed.

Lemma initial_sizes_ok : App.sizes_ok App.initial.
Proof.
  unfold App.sizes_ok, App.initial, MIN_NODE_WIDTH, MIN_NODE_HEIGHT,
    NODE_WIDTH, NODE_HEIGHT. simpl.
  split; [lra | split; [lra | intros n []]].
Qed.

(** X2: every command of the store keeps the default size and the size of
    every node at 60 by 40 or more, whatever sizes it is given; so in every
    store reached from the empty one each node is at least 60 wide and 40
    high. *)
Theorem store_keeps_minimum_size :
  (forall s c, App.sizes_ok s -> App.sizes_ok (App.exec s c))
  /\ (forall cs n, In n (App.nodes (App.run App.initial cs)) ->
        60 <= Node.width n /\ 40 <= Node.height n)
  /\ (forall cs,
        60 <= size_width (App.defaultNodeSize (App.run App.initial cs))
        /\ 40 <= size_height (App.defaultNodeSize (App.run App.initial cs))).
Proof.
  split; [exact exec_sizes_ok|].
  split; intros cs;
    destruct (run_sizes_ok cs App.initial initial_sizes_ok) as [Hw [Hh Hn]].
  - exact Hn.
  - split; assumption.
Qed.

Lemma store_keeps_minimum_size_witness :
  App.sizes_ok (App.exec Sample.store (App.UpdateNodeDimensions "A" 1 1))
  /\ map Node.width
       (App.nodes (App.exec Sample.store (App.UpdateNodeDimensions "A" 1 1)))
     = [Rmax 60 1; 200]
  /\ map Node.height
       (App.nodes (App.exec Sample.store (App.UpdateNodeDimensions "A" 1 1)))
     = [Rmax 40 1; 70].
Proof.
  split; [|split; reflexivity].
  apply (proj1 store_keeps_minimum_size).
  unfold App.sizes_ok, MIN_NODE_WIDTH, MIN_NODE_HEIGHT. simpl.
  unfold NODE_WIDTH, NODE_HEIGHT.
  split; [lra | split; [lra|]].
  intros n [<- | [<- | []]]; simpl; lra.
Defined.

End StoreInvariants.

Section StoreAlgebra.

Lemma App_eq (s s' : App.t) :
  App.nodes s = App.nodes s' -> App.edges s = App.edges s' ->
  App.selectedNodeId s = App.selectedNodeId s' ->
  App.aiPanelUserHidden s = App.aiPanelUserHidden s' ->
  App.defaultNodeSize s = App.defaultNodeSize s' ->
  s = s'.
Proof. destruct s, s'; simpl; intros; subst; reflexivity. Qed.

Lemma map_id_when (f : Node.t -> Node.t) (ns : list Node.t) :
  (forall n, In n ns -> f n = n) -> map f ns = ns.
Proof.
  intros H. induction ns as [|n ns IH]; simpl; trivial.
  rewrite H by now left. f_equal. apply IH. intros m Hm. apply H. now right.
Qed.

Lemma filter_all {A : Type} (p : A -> bool) (l : list A) :
  (forall a, In a l -> p a = true) -> filter p l = l.
Proof.
  intros H. induction l as [|a l IH]; simpl; trivial.
  rewrite H by now left. f_equal. apply IH. intros b Hb. apply H. now right.
Qed.

Lemma filter_swap {A : Type} (p q : A -> bool) (l : list A) :
  filter p (filter q l) = filter q (filter p l).
Proof.
  induction l as [|a l IH]; simpl; trivial.
  destruct (p a) eqn:Ep; destruct (q a) eqn:Eq; simpl;
    rewrite ?Ep, ?Eq, IH; reflexivity.
Qed.

Lemma filter_twice {A : Type} (p : A -> bool) (l : list A) :
  filter p (filter p l) = filter p l.
Proof.
  apply filter_all. intros a Ha. now apply filter_In in Ha.
Qed.

Lemma not_exists_neq (ns : list Node.t) (k : string) :
  ~ App.node_exists ns k ->
  forall n, In n ns -> (Node.id n =? k)%string = false.
Proof.
  intros H n Hn. apply String.eqb_neq. intros E. apply H. now exists n.
Qed.

(** X3: a command that names the id of no node, or of no edge, changes
    nothing: the three updates and [deleteEdge] return the store as it
    was, and so does [deleteNode] when every edge has both ends in the
    store and the id is not the selected one. *)
Theorem missing_id_is_noop (s : App.t) (k : string) :
  (~ App.node_exists (App.nodes s) k ->
   (forall newText, App.updateNodeText s k newText = s)
   /\ (forall x y, App.updateNodePosition s k x y = s)
   /\ (forall w h, App.handleUpdateNodeDimensions s k w h = s)
   /\ (App.edges_closed s -> App.selectedNodeId s <> Some k ->
       App.deleteNode s k = s))
  /\ ((forall e, In e (App.edges s) -> Edge.id e <> k) ->
      App.deleteEdge s k = s).
Proof.
  split.
  - intros Hk. assert (Hneq := not_exists_neq _ _ Hk).
    split; [|split; [|split]].
    + intros t. apply App_eq; trivial. simpl. apply map_id_when.
      intros n Hn. now rewrite Hneq.
    + intros x y. apply App_eq; trivial. simpl. apply map_id_when.
      intros n Hn. now rewrite Hneq.
    + intros w h. apply App_eq; trivial. simpl. apply map_id_when.
      intros n Hn. now rewrite Hneq.
    + intros Hclosed Hsel.
      assert (Hno : App.opt_is (App.selectedNodeId s) k = false).
      { destruct (App.opt_is _ _) eqn:E; trivial.
        apply opt_is_true in E. contradiction. }
      unfold App.deleteNode. rewrite Hno.
      apply App_eq; trivial; simpl; apply filter_all.
      * intros n Hn. now rewrite Hneq.
      * intros e He. destruct (Hclosed e He) as [Hs Ht].
        apply andb_true_iff. split; apply negb_true_iff, String.eqb_neq;
          intros E; apply Hk; congruence.
  - intros He. apply App_eq; trivial. simpl. apply filter_all.
    intros e Hin. apply negb_true_iff, String.eqb_neq. now apply He.
Qed.

Lemma missing_id_is_noop_witness :
  App.updateNodePosition Sample.store "Z" 1 2 = Sample.store
  /\ App.deleteNode Sample.store "Z" = Sample.store
  /\ App.deleteEdge Sample.store "Z" = Sample.store.
Proof.
  destruct (missing_id_is_noop Sample.store "Z") as [Hn He].
  assert (Hz : ~ App.node_exists (App.nodes Sample.store) "Z").
  { intros [n [[<- | [<- | []]] E]]; discriminate. }
  destruct (Hn Hz) as [_ [Hp [_ Hd]]].
  split; [apply Hp | split].
  - apply Hd; [intros e [] | discriminate].
  - apply He. intros e [].
Defined.

(** X4: deleting a node twice is deleting it once, and two nodes can be
    deleted in either order. *)
Theorem deleteNode_twice_and_order (s : App.t) (a b : string) :
  App.deleteNode (App.deleteNode s a) a = App.deleteNode s a
  /\ App.deleteNode (App.deleteNode s a) b
     = App.deleteNode (App.deleteNode s b) a.
Proof.
  assert (Hsel : forall s k,
             App.selectedNodeId (App.deleteNode s k)
             = if App.opt_is (App.selectedNodeId s) k then None
               else App.selectedNodeId s).
  { intros s0 k. unfold App.deleteNode. now destruct (App.opt_is _ _). }
  assert (Hai : forall s k,
             App.aiPanelUserHidden (App.deleteNode s k)
             = App.aiPanelUserHidden s).
  { intros s0 k. unfold App.deleteNode. now destruct (App.opt_is _ _). }
  assert (Hdef : forall s k,
             App.defaultNodeSize (App.deleteNode s k) = App.defaultNodeSize s).
  { intros s0 k. unfold App.deleteNode. now destruct (App.opt_is _ _). }
  split; apply App_eq; rewrite ?deleteNode_nodes, ?deleteNode_edges,
    ?Hsel, ?Hai, ?Hdef; trivial.
  - apply filter_twice.
  - apply filter_twice.
  - destruct (App.opt_is (App.selectedNodeId s) a) eqn:E; simpl; trivial.
    now rewrite E.
  - apply filter_swap.
  - apply filter_swap.
  - destruct (App.selectedNodeId s) as [k|]; simpl; trivial.
    destruct (k =? a)%string eqn:Ea; destruct (k =? b)%string eqn:Eb; simpl;
      rewrite ?Ea, ?Eb; reflexivity.
Qed.

(** X5: deleting the edge that [addEdge] has just created, by the id it
    was given, restores the store, provided that id was the id of no
    edge. *)
Theorem addEdge_then_deleteEdge (s : App.t) (o : Oracle) (a b : string) :
  ~ In (generateId o) (map Edge.id (App.edges s)) ->
  App.deleteEdge (App.addEdge s o a b) (generateId o) = s.
Proof.
  intros Hfresh.
  assert (Hkeep : filter (fun e => negb (Edge.id e =? generateId o)%string)
                         (App.edges s) = App.edges s).
  { apply filter_all. intros e He. apply negb_true_iff, String.eqb_neq.
    intros E. apply Hfresh. rewrite <- E. now apply in_map. }
  unfold App.addEdge. destruct (_ || _).
  - apply App_eq; trivial.
  - apply App_eq; trivial. simpl. rewrite filter_app, Hkeep. simpl.
    rewrite String.eqb_refl. simpl. apply app_nil_r.
Qed.

Lemma addEdge_then_deleteEdge_witness :
  App.deleteEdge (App.addEdge Sample.store Sample.o1 "B" "A") "id_1"
  = Sample.store.
Proof.
  apply (addEdge_then_deleteEdge Sample.store Sample.o1 "B" "A").
  intros [].
Defined.

(** X6: deleting the node that [addNode] has just created, by the id it
    was given, restores the nodes, the edges, the selection and the default
    size, provided that id was the id of no node, every edge had both ends
    in the store and the id was not the selected one. *)
Theorem addNode_then_deleteNode (s : App.t) (o : Oracle) (type : NodeType)
    (text : option string) (x y : option number) :
  ~ App.node_exists (App.nodes s) (generateId o) ->
  App.edges_closed s ->
  App.selectedNodeId s <> Some (generateId o) ->
  App.deleteNode (snd (App.addNode s o type text x y)) (generateId o)
  = App.setAiPanelUserHidden false s.
Proof.
  intros Hfresh Hclosed Hsel.
  assert (Hneq := not_exists_neq _ _ Hfresh).
  assert (Hno : App.opt_is (App.selectedNodeId s) (generateId o) = false).
  { destruct (App.opt_is _ _) eqn:E; trivial.
    apply opt_is_true in E. contradiction. }
  unfold App.deleteNode. simpl. rewrite Hno.
  apply App_eq; trivial; simpl.
  - rewrite filter_app. simpl. rewrite String.eqb_refl. simpl.
    rewrite app_nil_r. apply filter_all. intros n Hn. now rewrite Hneq.
  - apply filter_all. intros e He. destruct (Hclosed e He) as [Hs Ht].
    apply andb_true_iff. split; apply negb_true_iff, String.eqb_neq;
      intros E; apply Hfresh; congruence.
Qed.

Lemma addNode_then_deleteNode_witness :
  App.deleteNode
    (snd (App.addNode Sample.store Sample.o1 CAUSE None None None)) "id_1"
  = Sample.store.
Proof.
  apply (addNode_then_deleteNode Sample.store Sample.o1 CAUSE None None None).
  - intros [n [[<- | [<- | []]] E]]; discriminate.
  - intros e [].
  - discriminate.
Defined.

End StoreAlgebra.

Section StoreNodes.

Lemma map_id_filter (k : string) (ns : list Node.t) :
  map Node.id (filter (fun n => negb (Node.id n =? k)%string) ns)
  = filter (fun i => negb (i =? k)%string) (map Node.id ns).
Proof.
  induction ns as [|n ns IH]; simpl; trivial.
  destruct (Node.id n =? k)%string; simpl; now rewrite IH.
Qed.

Lemma map_id_map (f : Node.t -> Node.t) (ns : list Node.t) :
  (forall n, Node.id (f n) = Node.id n) ->
  map Node.id (map f ns) = map Node.id ns.
Proof.
  intros H. rewrite map_map. apply map_ext. exact H.
Qed.

Lemma exec_node_ids (s : App.t) (c : App.command) :
  map Node.id (App.nodes (App.exec s c))
  = match c with
    | App.AddNode o _ _ _ _ => map Node.id (App.nodes s) ++ [generateId o]
    | App.DeleteNode k =>
        filter (fun i => negb (i =? k)%string) (map Node.id (App.nodes s))
    | _ => map Node.id (App.nodes s)
    end.
Proof.
  destruct c; simpl; trivial.
  - now rewrite map_app.
  - apply map_id_map. intros n. now destruct (Node.id n =? nodeId)%string.
  - apply map_id_map. intros n. now destruct (Node.id n =? nodeId)%string.
  - apply map_id_map. intros n. now destruct (Node.id n =? nodeId)%string.
  - rewrite deleteNode_nodes. apply map_id_filter.
  - unfold App.addEdge. now destruct (_ || _).
Qed.

(** X7: the ids of the nodes, in their order, change only by [addNode],
    which appends the generated id, and by [deleteNode], which removes the
    id it is given: no update renames, duplicates, reorders or drops a
    node.  So the ids stay distinct as long as [addNode] is given an id
    that is not in use. *)
Theorem node_ids_are_stable (s : App.t) (c : App.command) :
  map Node.id (App.nodes (App.exec s c))
  = match c with
    | App.AddNode o _ _ _ _ => map Node.id (App.nodes s) ++ [generateId o]
    | App.DeleteNode k =>
        filter (fun i => negb (i =? k)%string) (map Node.id (App.nodes s))
    | _ => map Node.id (App.nodes s)
    end
  /\ (NoDup (map Node.id (App.nodes s)) ->
      (forall o type text x y, c = App.AddNode o type text x y ->
         ~ In (generateId o) (map Node.id (App.nodes s))) ->
      NoDup (map Node.id (App.nodes (App.exec s c)))).
Proof.
  split; [apply exec_node_ids|].
  intros Hnd Hfresh. rewrite exec_node_ids. destruct c; trivial.
  - apply NoDup_app; trivial.
    + repeat constructor. intros [].
    + intros k Hk [<- | []]. now apply (Hfresh o type text x y).
  - now apply NoDup_filter.
Qed.

Lemma node_ids_are_stable_witness :
  NoDup (map Node.id
           (App.nodes (App.exec Sample.store
                         (App.AddNode Sample.o1 UDE None None None)))).
Proof.
  apply (node_ids_are_stable Sample.store
           (App.AddNode Sample.o1 UDE None None None)).
  - repeat constructor; simpl; intuition discriminate.
  - intros o type text x y [= <- _ _ _ _]. simpl. intuition discriminate.
Defined.

(** X8: [addNode] keeps a coordinate it is given, zero included, and
    draws a missing one from the random source: with [Math.random()] in
    [0, 1) the node is placed with x in [50, 350) and y in [50, 250).  It
    always takes the default size of the moment. *)
Theorem addNode_placement (s : App.t) (o : Oracle) (type : NodeType)
    (text : option string) (x y : option number) :
  (forall v, x = Some v -> Node.x (fst (App.addNode s o type text x y)) = v)
  /\ (forall v, y = Some v -> Node.y (fst (App.addNode s o type text x y)) = v)
  /\ (x = None -> 0 <= random_x o < 1 ->
      50 <= Node.x (fst (App.addNode s o type text x y)) < 350)
  /\ (y = None -> 0 <= random_y o < 1 ->
      50 <= Node.y (fst (App.addNode s o type text x y)) < 250)
  /\ Node.width (fst (App.addNode s o type text x y))
     = size_width (App.defaultNodeSize s)
  /\ Node.height (fst (App.addNode s o type text x y))
     = size_height (App.defaultNodeSize s).
Proof.
  split; [now intros v -> | split; [now intros v -> |]].
  split; [|split; [|split; reflexivity]].
  - intros -> H. simpl. lra.
  - intros -> H. simpl. lra.
Qed.

Lemma addNode_placement_witness :
  Node.x (fst (App.addNode Sample.store Sample.o1 UDE None (Some 0) None)) = 0
  /\ 50 <= Node.y (fst (App.addNode Sample.store Sample.o1 UDE None (Some 0)
                                    None)) < 250.
Proof.
  destruct (addNode_placement Sample.store Sample.o1 UDE None (Some 0) None)
    as [Hx [_ [_ [Hy _]]]].
  split; [now apply Hx | apply Hy; [reflexivity | simpl; lra]].
Defined.

Lemma setNodes_map_map (f g : Node.t -> Node.t) (s : App.t) :
  App.setNodes (map f) (App.setNodes (map g) s)
  = App.setNodes (map (fun n => f (g n))) s.
Proof.
  unfold App.setNodes. simpl. now rewrite map_map.
Qed.

Lemma setNodes_map_ext (f g : Node.t -> Node.t) (s : App.t) :
  (forall n, f n = g n) -> App.setNodes (map f) s = App.setNodes (map g) s.
Proof.
  intros H. unfold App.setNodes. f_equal. now apply map_ext.
Qed.

(** X9: of two moves of the same node the later one wins; moves of two
    different nodes can be made in either order; and a move, a change of
    text and a change of size can be made in any order, on the same node or
    on different ones. *)
Theorem updates_compose (s : App.t) (k k' : string) (x y x' y' w h : number)
    (newText : string) :
  App.updateNodePosition (App.updateNodePosition s k x y) k x' y'
  = App.updateNodePosition s k x' y'
  /\ (k <> k' ->
      App.updateNodePosition (App.updateNodePosition s k x y) k' x' y'
      = App.updateNodePosition (App.updateNodePosition s k' x' y') k x y)
  /\ App.updateNodeText (App.updateNodePosition s k x y) k' newText
     = App.updateNodePosition (App.updateNodeText s k' newText) k x y
  /\ App.handleUpdateNodeDimensions (App.updateNodePosition s k x y) k' w h
     = App.updateNodePosition (App.handleUpdateNodeDimensions s k' w h) k x y
  /\ App.handleUpdateNodeDimensions (App.updateNodeText s k newText) k' w h
     = App.updateNodeText (App.handleUpdateNodeDimensions s k' w h) k newText.
Proof.
  unfold App.updateNodePosition, App.updateNodeText,
    App.handleUpdateNodeDimensions.
  rewrite !setNodes_map_map.
  split; [|split; [|split; [|split]]]; try intros Hk;
    apply setNodes_map_ext; intros n.
  - destruct (Node.id n =? k)%string eqn:E; simpl; rewrite ?E; reflexivity.
  - destruct (Node.id n =? k)%string eqn:E;
      destruct (Node.id n =? k')%string eqn:E'; simpl; rewrite ?E, ?E';
      trivial.
    apply String.eqb_eq in E. apply String.eqb_eq in E'. congruence.
  - destruct (Node.id n =? k)%string eqn:E;
      destruct (Node.id n =? k')%string eqn:E'; simpl; rewrite ?E, ?E';
      reflexivity.
  - destruct (Node.id n =? k)%string eqn:E;
      destruct (Node.id n =? k')%string eqn:E'; simpl; rewrite ?E, ?E';
      reflexivity.
  - destruct (Node.id n =? k)%string eqn:E;
      destruct (Node.id n =? k')%string eqn:E'; simpl; rewrite ?E, ?E';
      reflexivity.
Qed.

Lemma updates_compose_witness :
  App.updateNodePosition (App.updateNodePosition Sample.store "A" 1 2) "B" 3 4
  = App.updateNodePosition (App.updateNodePosition Sample.store "B" 3 4) "A" 1 2.
Proof.
  destruct (updates_compose Sample.store "A" "B" 1 2 3 4 0 0 "")
    as [_ [H _]].
  apply H. discriminate.
Defined.

(** X10: making the size of a node the default makes that node count as
    being of the default size exactly when it is at least 60 wide and 40
    high; no node is resized by it, and the nodes created afterwards have
    that size, raised to 60 by 40 where it is below. *)
Theorem default_size_from_node (s : App.t) (node : Node.t) (o : Oracle)
    (type : NodeType) (text : option string) (x y : option number) :
  let s' := App.handleSetDefaultNodeSize s (Node.width node) (Node.height node) in
  (NodeComponent.isCurrentSizeDefault node (App.defaultNodeSize s') = true
   <-> 60 <= Node.width node /\ 40 <= Node.height node)
  /\ App.nodes s' = App.nodes s
  /\ App.edges s' = App.edges s
  /\ Node.width (fst (App.addNode s' o type text x y))
     = Rmax 60 (Node.width node)
  /\ Node.height (fst (App.addNode s' o type text x y))
     = Rmax 40 (Node.height node).
Proof.
  intros s'. split; [|repeat split].
  unfold NodeComponent.isCurrentSizeDefault. simpl.
  rewrite andb_true_iff, !number_eqb_true.
  unfold MIN_NODE_WIDTH, MIN_NODE_HEIGHT, Rmax.
  destruct (Rle_dec 60 (Node.width node));
    destruct (Rle_dec 40 (Node.height node)); lra.
Qed.

End StoreNodes.

(** ** Suggested causes *)

Section Suggestions.

Lemma fold_left_Rmax_ge (vs : list number) (v : number) :
  v <= fold_left Rmax vs v
  /\ forall x, In x vs -> x <= fold_left Rmax vs v.
Proof.
  revert v. induction vs as [|a vs IH]; simpl; intros v.
  - split; [lra | intros x []].
  - destruct (IH (Rmax v a)) as [H1 H2]. split.
    + apply Rle_trans with (Rmax v a); [apply Rmax_l | exact H1].
    + intros x [<- | Hx]; [|now apply H2].
      apply Rle_trans with (Rmax v a); [apply Rmax_r | exact H1].
Qed.

Lemma lastNodeY_ge (ns : list Node.t) (n : Node.t) :
  In n ns -> App.bottomOf n <= App.lastNodeY ns.
Proof.
  intros Hn. unfold App.lastNodeY.
  assert (Hin : In (App.bottomOf n) (map App.bottomOf ns)) by now apply in_map.
  destruct (map App.bottomOf ns) as [|v vs]; [contradiction|].
  destruct (fold_left_Rmax_ge vs v) as [H1 H2].
  destruct Hin as [<- | Hin]; auto.
Qed.

Lemma fold_left_Rmax_in (vs : list number) (v : number) :
  fold_left Rmax vs v = v \/ In (fold_left Rmax vs v) vs.
Proof.
  revert v. induction vs as [|a vs IH]; simpl; intros v; [now left|].
  destruct (IH (Rmax v a)) as [H | H]; [|now right; right].
  rewrite H. unfold Rmax. destruct (Rle_dec v a); auto.
Qed.

(** In a diagram that is not empty, [lastNodeY] is the bottom of one of
    the nodes. *)
Lemma lastNodeY_attained (ns : list Node.t) :
  ns <> [] -> exists n, In n ns /\ App.lastNodeY ns = App.bottomOf n.
Proof.
  destruct ns as [|n0 ns]; [contradiction|]. intros _.
  unfold App.lastNodeY. simpl map.
  destruct (fold_left_Rmax_in (map App.bottomOf ns) (App.bottomOf n0))
    as [H | H].
  - exists n0. split; [now left | exact H].
  - apply in_map_iff in H. destruct H as [n [Hn Hin]].
    exists n. split; [now right | now rewrite Hn].
Qed.

Lemma addEdge_nodes (s : App.t) (o : Oracle) (a b : string) :
  App.nodes (App.addEdge s o a b) = App.nodes s.
Proof. unfold App.addEdge. now destruct (_ || _). Qed.

Lemma currentlySelectedNode_In (s : App.t) (selected : Node.t) :
  App.currentlySelectedNode s = Some selected ->
  In selected (App.nodes s) /\ App.selectedNodeId s = Some (Node.id selected).
Proof.
  unfold App.currentlySelectedNode.
  destruct (App.selectedNodeId s) as [k|]; [|discriminate].
  intros H. apply find_some in H. destruct H as [Hin Hk].
  apply String.eqb_eq in Hk. now subst k.
Qed.

(** X11: [addAISuggestionAsCause] appends one cause whose top is exactly
    30 below the lowest bottom among the nodes: there is a node whose
    bottom no other bottom exceeds, and the y of the new cause is that
    bottom plus 30 (the bottom of a node being its y plus its height, with
    70 for a height of zero); in an empty diagram its y is 80.  So it is
    below every node that has a height.  Its x is that of the selected node
    when there is one, and is drawn at random otherwise; its text is the
    suggestion, or 'Nova Causa' when the suggestion is empty; and the
    suggestion leaves the list, in all its occurrences. *)
Theorem suggestion_is_placed_below (s : App.t) (aiSuggestions : list string)
    (r : number) (o o' : Oracle) (suggestionText : string) :
  let result :=
    App.addAISuggestionAsCause s aiSuggestions r o o' suggestionText in
  exists newCauseNode,
    App.nodes (fst result) = App.nodes s ++ [newCauseNode]
    /\ Node.id newCauseNode = generateId o
    /\ Node.type newCauseNode = CAUSE
    /\ Node.text newCauseNode
       = (if (suggestionText =? "")%string then "Nova Causa"%string
          else suggestionText)
    /\ (forall n, In n (App.nodes s) -> Node.height n <> 0 ->
          Node.y n + Node.height n + 30 <= Node.y newCauseNode)
    /\ (App.nodes s = [] -> Node.y newCauseNode = 50 + 30)
    /\ (forall selected, App.currentlySelectedNode s = Some selected ->
          Node.x newCauseNode = Node.x selected)
    /\ (App.currentlySelectedNode s = None ->
        Node.x newCauseNode = r * 300 + 50)
    /\ (forall x, In x (snd result)
                  <-> In x aiSuggestions /\ x <> suggestionText)
    /\ (App.nodes s <> [] ->
        exists lowest,
          In lowest (App.nodes s)
          /\ (forall n, In n (App.nodes s) ->
                Node.y n + (if number_eqb (Node.height n) 0 then 70
                            else Node.height n)
                <= Node.y lowest + (if number_eqb (Node.height lowest) 0
                                    then 70 else Node.height lowest))
          /\ Node.y newCauseNode
             = Node.y lowest + (if number_eqb (Node.height lowest) 0 then 70
                                else Node.height lowest) + 30).
Proof.
  intros result. subst result. unfold App.addAISuggestionAsCause.
  assert (Hexact :
            App.nodes s <> [] ->
            exists lowest,
              In lowest (App.nodes s)
              /\ (forall n, In n (App.nodes s) ->
                    Node.y n + (if number_eqb (Node.height n) 0 then 70
                                else Node.height n)
                    <= Node.y lowest + (if number_eqb (Node.height lowest) 0
                                        then 70 else Node.height lowest))
              /\ App.lastNodeY (App.nodes s) + 30
                 = Node.y lowest + (if number_eqb (Node.height lowest) 0
                                    then 70 else Node.height lowest) + 30).
  { intros Hne. destruct (lastNodeY_attained _ Hne) as [lowest [Hin Hl]].
    exists lowest. split; [exact Hin|]. split.
    - intros n Hn. apply lastNodeY_ge in Hn. rewrite Hl in Hn. exact Hn.
    - rewrite Hl. reflexivity. }
  assert (Hbelow : forall n, In n (App.nodes s) -> Node.height n <> 0 ->
            Node.y n + Node.height n + 30 <= App.lastNodeY (App.nodes s) + 30).
  { intros n Hn Hh. apply lastNodeY_ge in Hn. unfold App.bottomOf in Hn.
    apply number_eqb_false in Hh. rewrite Hh in Hn. lra. }
  assert (Hrest : forall x,
            In x (filter (fun x => negb (x =? suggestionText)%string)
                         aiSuggestions)
            <-> In x aiSuggestions /\ x <> suggestionText).
  { intros x. rewrite filter_In, negb_true_iff, String.eqb_neq. tauto. }
  destruct (App.currentlySelectedNode s) as [selected|] eqn:Hsel.
  - exists (App.newNode s o CAUSE (Some suggestionText)
              (Some (Node.x selected))
              (Some (App.lastNodeY (App.nodes s) + 30))).
    split.
    { simpl. destruct (Node.type selected);
        [rewrite addEdge_nodes|]; reflexivity. }
    simpl. split; [reflexivity|]. split; [reflexivity|].
    split; [now destruct suggestionText|]. split; [exact Hbelow|].
    split; [now intros ->|]. split; [now intros ? [= <-]|].
    split; [discriminate | split; [exact Hrest | exact Hexact]].
  - exists (App.newNode s o CAUSE (Some suggestionText)
              (Some (r * 300 + 50))
              (Some (App.lastNodeY (App.nodes s) + 30))).
    simpl. split; [reflexivity|]. split; [reflexivity|].
    split; [reflexivity|].
    split; [now destruct suggestionText|]. split; [exact Hbelow|].
    split; [now intros ->|]. split; [discriminate|].
    split; [reflexivity | split; [exact Hrest | exact Hexact]].
Qed.

(** X12: when the selected node is an undesirable effect,
    [addAISuggestionAsCause] also appends the edge from the new cause to
    it, provided the new id is not the id of that node and not yet the
    source of an edge to it; when the selected node is a cause, or no node
    is selected, it adds no edge.  If every edge had both ends in the
    store, every edge still has. *)
Theorem suggestion_is_linked (s : App.t) (aiSuggestions : list string)
    (r : number) (o o' : Oracle) (suggestionText : string) :
  let result :=
    App.addAISuggestionAsCause s aiSuggestions r o o' suggestionText in
  (forall selected,
     App.currentlySelectedNode s = Some selected ->
     Node.type selected = UDE ->
     generateId o <> Node.id selected ->
     (forall e, In e (App.edges s) ->
        ~ (Edge.sourceId e = generateId o
           /\ Edge.targetId e = Node.id selected)) ->
     App.edges (fst result)
     = App.edges s ++ [Edge.mk (generateId o') (generateId o) (Node.id selected)])
  /\ (forall selected,
        App.currentlySelectedNode s = Some selected ->
        Node.type selected = CAUSE ->
        App.edges (fst result) = App.edges s)
  /\ (App.currentlySelectedNode s = None ->
      App.edges (fst result) = App.edges s)
  /\ (App.edges_closed s -> App.edges_closed (fst result)).
Proof.
  intros result. subst result. unfold App.addAISuggestionAsCause. simpl.
  split; [|split; [|split]].
  - intros selected Hsel Hty Hid Hnew. rewrite Hsel, Hty. simpl.
    rewrite addEdge_accepted; trivial. now apply has_edge_false.
  - intros selected Hsel Hty. now rewrite Hsel, Hty.
  - now intros ->.
  - intros Hclosed.
    assert (H1 : forall x y,
               App.edges_closed
                 (snd (App.addNode s o CAUSE (Some suggestionText) x y))).
    { intros x y.
      apply (exec_edges_closed s
               (App.AddNode o CAUSE (Some suggestionText) x y)); simpl; trivial. }
    destruct (App.currentlySelectedNode s) as [selected|] eqn:Hsel;
      [|apply H1].
    destruct (Node.type selected); [|apply H1].
    apply (exec_edges_closed
             (snd (App.addNode s o CAUSE (Some suggestionText)
                     (Some (Node.x selected))
                     (Some (App.lastNodeY (App.nodes s) + 30))))
             (App.AddEdge o' (generateId o) (Node.id selected)));
      [|apply H1].
    simpl. split.
    + eexists. split; [apply in_or_app; right; left; reflexivity|reflexivity].
    + apply currentlySelectedNode_In in Hsel. exists selected.
      split; [apply in_or_app; now left | reflexivity].
Qed.

Lemma suggestion_is_linked_witness :
  App.edges
    (fst (App.addAISuggestionAsCause
            (App.setSelectedNodeId (Some "A"%string) Sample.store)
            ["Falta de treino"%string] 0 Sample.o1 Sample.o2
            "Falta de treino"))
  = [Edge.mk "id_2" "id_1" "A"].
Proof.
  destruct (suggestion_is_linked
              (App.setSelectedNodeId (Some "A"%string) Sample.store)
              ["Falta de treino"%string] 0 Sample.o1 Sample.o2
              "Falta de treino") as [H _].
  apply (H Sample.A); try reflexivity; [discriminate | intros e []].
Defined.

Lemma suggestion_is_placed_below_witness :
  exists n,
    App.nodes (fst (App.addAISuggestionAsCause Sample.store [] 0 Sample.o1
                      Sample.o2 "Falta de treino"))
    = [Sample.A; Sample.B; n]
    /\ Node.y n = 300 + 70 + 30.
Proof.
  destruct (suggestion_is_placed_below Sample.store [] 0 Sample.o1 Sample.o2
              "Falta de treino")
    as [n [Hn [_ [_ [_ [_ [_ [_ [_ [_ Hy]]]]]]]]]].
  exists n. split; [exact Hn|].
  destruct Hy as [lowest [Hin [Hmax Hy]]]; [discriminate|].
  assert (HA : number_eqb (Node.height Sample.A) 0 = false)
    by (apply number_eqb_false; simpl; lra).
  assert (HB : number_eqb (Node.height Sample.B) 0 = false)
    by (apply number_eqb_false; simpl; lra).
  specialize (Hmax Sample.B ltac:(simpl; auto)). rewrite HB in Hmax.
  destruct Hin as [<- | [<- | []]].
  - rewrite HA in Hmax. simpl in Hmax. lra.
  - rewrite Hy, HB. reflexivity.
Defined.

End Suggestions.

(** * Further properties of the geometry *)

Section Rays.

Lemma Rabs_div_pos (a l : number) : 0 < l -> Rabs (a / l) = Rabs a / l.
Proof.
  intros Hl. unfold Rdiv. rewrite Rabs_mult.
  rewrite (Rabs_right (/ l)); trivial.
  apply Rle_ge, Rlt_le. now apply Rinv_0_lt_compat.
Qed.

Lemma Rmin_div_pos (a b l : number) :
  0 < l -> Rmin (a / l) (b / l) = Rmin a b / l.
Proof.
  intros Hl. assert (Hi : 0 < / l) by now apply Rinv_0_lt_compat.
  unfold Rmin, Rdiv.
  destruct (Rle_dec (a * / l) (b * / l)); destruct (Rle_dec a b); trivial; nra.
Qed.

Lemma Rabs_half_over (half d : number) :
  0 < half -> d <> 0 ->
  (0 < d -> d * Rabs (half / d) = half)
  /\ (d < 0 -> d * Rabs (half / d) = - half)
  /\ Rabs (half / - d) = Rabs (half / d)
  /\ forall l, 0 < l -> Rabs (half / (l * d)) = Rabs (half / d) / l.
Proof.
  intros Hh Hd. split; [|split; [|split]].
  - intros Hpos. rewrite Rabs_right; [field; lra|].
    apply Rle_ge, Rlt_le, Rdiv_lt_0_compat; lra.
  - intros Hneg.
    assert (half / d < 0).
    { unfold Rdiv. assert (/ d < 0) by now apply Rinv_lt_0_compat. nra. }
    rewrite Rabs_left by trivial. field. lra.
  - replace (half / - d) with (- (half / d)) by (field; lra).
    apply Rabs_Ropp.
  - intros l Hl. rewrite <- Rabs_div_pos by trivial.
    f_equal. field. lra.
Qed.

(** On a node of positive size the function is [boundaryPoint] of the two
    deltas: the clamping at its end changes nothing. *)
Lemma intersection_closed_form (node : Node.t) (targetPoint : Point) :
  0 < Node.width node -> 0 < Node.height node ->
  calculateIntersectionPointWithNodeBoundary node targetPoint
  = boundaryPoint node
      (px targetPoint - (Node.x node + Node.width node / 2))
      (py targetPoint - (Node.y node + Node.height node / 2)).
Proof.
  intros Hw Hh.
  unfold calculateIntersectionPointWithNodeBoundary, boundaryPoint, rayScale.
  set (cx := Node.x node + Node.width node / 2).
  set (cy := Node.y node + Node.height node / 2).
  set (dx := px targetPoint - cx). set (dy := py targetPoint - cy).
  assert (Hhw : 0 < Node.width node / 2) by lra.
  assert (Hhh : 0 < Node.height node / 2) by lra.
  destruct (number_eqb dx 0) eqn:Ex; destruct (number_eqb dy 0) eqn:Ey; simpl;
    trivial.
  - apply number_eqb_true in Ex. apply number_eqb_false in Ey.
    destruct (scale_to_half dy _ Ey Hhh) as [Hpos Hside].
    rewrite (proj2 (number_eqb_false _ 0)) by lra.
    rewrite Ex.
    rewrite (clamp_id (Node.x node)) by (subst cx; lra).
    rewrite (clamp_id (Node.y node)) by (subst cy; lra).
    reflexivity.
  - apply number_eqb_false in Ex. apply number_eqb_true in Ey.
    destruct (scale_to_half dx _ Ex Hhw) as [Hpos Hside].
    rewrite (proj2 (number_eqb_false _ 0)) by lra.
    rewrite Ey.
    rewrite (clamp_id (Node.x node)) by (subst cx; lra).
    rewrite (clamp_id (Node.y node)) by (subst cy; lra).
    reflexivity.
  - apply number_eqb_false in Ex. apply number_eqb_false in Ey.
    destruct (scale_to_half dx _ Ex Hhw) as [Hposx Hsidex].
    destruct (scale_to_half dy _ Ey Hhh) as [Hposy Hsidey].
    set (tx := Rabs (Node.width node / 2 / dx)) in *.
    set (ty := Rabs (Node.height node / 2 / dy)) in *.
    assert (Hmin : 0 < Rmin tx ty) by now apply Rmin_glb_lt.
    rewrite (proj2 (number_eqb_false _ 0)) by lra.
    assert (Hx := scale_within_half dx _ (Rmin tx ty) Ex Hhw).
    assert (Hy := scale_within_half dy _ (Rmin tx ty) Ey Hhh).
    fold tx in Hx. fold ty in Hy.
    assert (Hl := Rmin_l tx ty). assert (Hr := Rmin_r tx ty).
    specialize (Hx ltac:(lra)). specialize (Hy ltac:(lra)).
    rewrite (clamp_id (Node.x node)) by (subst cx; lra).
    rewrite (clamp_id (Node.y node)) by (subst cy; lra).
    reflexivity.
Qed.

Lemma rayScale_pos (hw hh dx dy : number) :
  0 < hw -> 0 < hh -> dx <> 0 \/ dy <> 0 -> 0 < rayScale hw hh dx dy.
Proof.
  intros Hw Hh Hd. unfold rayScale.
  destruct (number_eqb dx 0) eqn:Ex; [|destruct (number_eqb dy 0) eqn:Ey].
  - apply number_eqb_true in Ex.
    assert (Ey : dy <> 0) by (destruct Hd; congruence).
    apply (scale_to_half dy hh Ey Hh).
  - apply number_eqb_false in Ex. apply (scale_to_half dx hw Ex Hw).
  - apply number_eqb_false in Ex. apply number_eqb_false in Ey.
    apply Rmin_glb_lt; [apply (scale_to_half dx hw Ex Hw)
                       | apply (scale_to_half dy hh Ey Hh)].
Qed.

Lemma rayScale_scaled (hw hh dx dy l : number) :
  0 < hw -> 0 < hh -> 0 < l ->
  rayScale hw hh (l * dx) (l * dy) = rayScale hw hh dx dy / l.
Proof.
  intros Hw Hh Hl. unfold rayScale.
  assert (Hz : forall d, number_eqb (l * d) 0 = number_eqb d 0).
  { intros d. destruct (number_eqb d 0) eqn:E.
    - apply number_eqb_true in E. apply (proj2 (number_eqb_true _ _)).
      subst d. lra.
    - apply number_eqb_false in E. apply (proj2 (number_eqb_false _ _)). nra. }
  rewrite !Hz.
  destruct (number_eqb dx 0) eqn:Ex; [|destruct (number_eqb dy 0) eqn:Ey].
  - destruct (number_eqb dy 0) eqn:Ey.
    + apply number_eqb_true in Ey. subst dy.
      replace (l * 0) with 0 by lra. unfold Rdiv.
      rewrite Rinv_0, Rmult_0_r, Rabs_R0. lra.
    + apply number_eqb_false in Ey.
      now apply (Rabs_half_over hh dy Hh Ey).
  - apply number_eqb_false in Ex. now apply (Rabs_half_over hw dx Hw Ex).
  - apply number_eqb_false in Ex. apply number_eqb_false in Ey.
    rewrite (proj2 (proj2 (proj2 (Rabs_half_over hw dx Hw Ex))) l Hl).
    rewrite (proj2 (proj2 (proj2 (Rabs_half_over hh dy Hh Ey))) l Hl).
    now apply Rmin_div_pos.
Qed.

Lemma rayScale_opposite (hw hh dx dy : number) :
  0 < hw -> 0 < hh -> dx <> 0 \/ dy <> 0 ->
  rayScale hw hh (- dx) (- dy) = rayScale hw hh dx dy.
Proof.
  intros Hw Hh Hd. unfold rayScale.
  assert (Hz : forall d, number_eqb (- d) 0 = number_eqb d 0).
  { intros d. destruct (number_eqb d 0) eqn:E.
    - apply number_eqb_true in E. apply (proj2 (number_eqb_true _ _)). lra.
    - apply number_eqb_false in E. apply (proj2 (number_eqb_false _ _)). lra. }
  rewrite !Hz.
  destruct (number_eqb dx 0) eqn:Ex; [|destruct (number_eqb dy 0) eqn:Ey].
  - apply number_eqb_true in Ex.
    assert (Ey : dy <> 0) by (destruct Hd; congruence).
    apply (Rabs_half_over hh dy Hh Ey).
  - apply number_eqb_false in Ex. apply (Rabs_half_over hw dx Hw Ex).
  - apply number_eqb_false in Ex. apply number_eqb_false in Ey.
    rewrite (proj1 (proj2 (proj2 (Rabs_half_over hw dx Hw Ex)))).
    rewrite (proj1 (proj2 (proj2 (Rabs_half_over hh dy Hh Ey)))).
    reflexivity.
Qed.

End Rays.

Section RayProperties.

Variable node : Node.t.
Hypothesis Hwidth : 0 < Node.width node.
Hypothesis Hheight : 0 < Node.height node.

Let cx := Node.x node + Node.width node / 2.
Let cy := Node.y node + Node.height node / 2.

Lemma number_eqb_scaled (l d : number) :
  0 < l -> number_eqb (l * d) 0 = number_eqb d 0.
Proof.
  intros Hl. destruct (number_eqb d 0) eqn:E.
  - apply number_eqb_true in E. apply (proj2 (number_eqb_true _ _)).
    subst d. lra.
  - apply number_eqb_false in E. apply (proj2 (number_eqb_false _ _)). nra.
Qed.

Lemma half_over_le_1 (half d : number) :
  0 < half -> d <> 0 ->
  (half <= Rabs d -> Rabs (half / d) <= 1)
  /\ (Rabs d <= half -> 1 <= Rabs (half / d)).
Proof.
  intros Hh Hd.
  destruct (Rabs_half_over half d Hh Hd) as [Hpos [Hneg _]].
  destruct (scale_to_half d half Hd Hh) as [Ht _].
  destruct (Rlt_dec 0 d) as [Hp | Hn].
  - rewrite (Rabs_right d) by lra. specialize (Hpos Hp). split; intros; nra.
  - assert (Hd' : d < 0) by lra. rewrite (Rabs_left d) by trivial.
    specialize (Hneg Hd'). split; intros; nra.
Qed.

(** X13: on a node of positive size, and for a target that is not its
    center, the point returned is on the ray from the center through the
    target: it is the center plus a positive multiple of the two deltas.
    The multiple is at most one when the target is outside the box or on
    its border, so that the point is between the center and the target,
    and at least one when the target is in the box. *)
Theorem intersection_on_ray (targetPoint : Point) :
  let dx := px targetPoint - cx in
  let dy := py targetPoint - cy in
  let p := calculateIntersectionPointWithNodeBoundary node targetPoint in
  dx <> 0 \/ dy <> 0 ->
  exists t,
    0 < t
    /\ px p = cx + t * dx
    /\ py p = cy + t * dy
    /\ (Node.width node / 2 <= Rabs dx \/ Node.height node / 2 <= Rabs dy ->
        t <= 1)
    /\ (Rabs dx <= Node.width node / 2 /\ Rabs dy <= Node.height node / 2 ->
        1 <= t).
Proof.
  intros dx dy p Hd. subst p.
  rewrite intersection_closed_form by trivial. fold cx cy dx dy.
  assert (Hhw : 0 < Node.width node / 2) by lra.
  assert (Hhh : 0 < Node.height node / 2) by lra.
  exists (rayScale (Node.width node / 2) (Node.height node / 2) dx dy).
  split; [now apply rayScale_pos|].
  unfold boundaryPoint. fold cx cy.
  assert (Hnz : number_eqb dx 0 && number_eqb dy 0 = false).
  { apply andb_false_iff. destruct Hd as [H | H]; [left | right];
      now apply number_eqb_false. }
  rewrite Hnz. simpl. split; [lra | split; [lra|]].
  unfold rayScale.
  destruct (number_eqb dx 0) eqn:Ex; [|destruct (number_eqb dy 0) eqn:Ey].
  - apply number_eqb_true in Ex.
    assert (Ey : dy <> 0) by (destruct Hd; congruence).
    destruct (half_over_le_1 _ dy Hhh Ey) as [Hle Hge].
    split.
    + intros [H | H]; [|now apply Hle].
      rewrite Ex, Rabs_R0 in H. lra.
    + intros [_ H]. now apply Hge.
  - apply number_eqb_false in Ex. apply number_eqb_true in Ey.
    destruct (half_over_le_1 _ dx Hhw Ex) as [Hle Hge].
    split.
    + intros [H | H]; [now apply Hle|].
      rewrite Ey, Rabs_R0 in H. lra.
    + intros [H _]. now apply Hge.
  - apply number_eqb_false in Ex. apply number_eqb_false in Ey.
    destruct (half_over_le_1 _ dx Hhw Ex) as [Hlex Hgex].
    destruct (half_over_le_1 _ dy Hhh Ey) as [Hley Hgey].
    split.
    + intros [H | H].
      * apply Rle_trans with (Rabs (Node.width node / 2 / dx));
          [apply Rmin_l | now apply Hlex].
      * apply Rle_trans with (Rabs (Node.height node / 2 / dy));
          [apply Rmin_r | now apply Hley].
    + intros [Hx Hy]. apply Rmin_glb; auto.
Qed.

(** X14: on a node of positive size, a target straight below the center
    gives the middle of the bottom side, one straight above it the middle
    of the top side, one straight to its right the middle of the right
    side and one straight to its left the middle of the left side. *)
Theorem intersection_straight (targetPoint : Point) :
  let dx := px targetPoint - cx in
  let dy := py targetPoint - cy in
  let p := calculateIntersectionPointWithNodeBoundary node targetPoint in
  (dx = 0 -> 0 < dy -> p = mkPoint cx (Node.y node + Node.height node))
  /\ (dx = 0 -> dy < 0 -> p = mkPoint cx (Node.y node))
  /\ (dy = 0 -> 0 < dx -> p = mkPoint (Node.x node + Node.width node) cy)
  /\ (dy = 0 -> dx < 0 -> p = mkPoint (Node.x node) cy).
Proof.
  intros dx dy p. subst p.
  rewrite intersection_closed_form by trivial. fold cx cy dx dy.
  assert (Hhw : 0 < Node.width node / 2) by lra.
  assert (Hhh : 0 < Node.height node / 2) by lra.
  unfold boundaryPoint, rayScale. fold cx cy.
  split; [|split; [|split]]; intros H0 Hs; rewrite H0.
  - rewrite (proj2 (number_eqb_true 0 0) eq_refl).
    rewrite (proj2 (number_eqb_false dy 0)) by lra. simpl.
    destruct (Rabs_half_over _ dy Hhh ltac:(lra)) as [Hpos _].
    rewrite (Hpos Hs). subst cx cy. f_equal; lra.
  - rewrite (proj2 (number_eqb_true 0 0) eq_refl).
    rewrite (proj2 (number_eqb_false dy 0)) by lra. simpl.
    destruct (Rabs_half_over _ dy Hhh ltac:(lra)) as [_ [Hneg _]].
    rewrite (Hneg Hs). subst cx cy. f_equal; lra.
  - rewrite (proj2 (number_eqb_true 0 0) eq_refl).
    rewrite (proj2 (number_eqb_false dx 0)) by lra. simpl.
    destruct (Rabs_half_over _ dx Hhw ltac:(lra)) as [Hpos _].
    rewrite (Hpos Hs). subst cx cy. f_equal; lra.
  - rewrite (proj2 (number_eqb_true 0 0) eq_refl).
    rewrite (proj2 (number_eqb_false dx 0)) by lra. simpl.
    destruct (Rabs_half_over _ dx Hhw ltac:(lra)) as [_ [Hneg _]].
    rewrite (Hneg Hs). subst cx cy. f_equal; lra.
Qed.

(** X15: on a node of positive size the point returned depends on the
    direction of the target only: moving the target along the ray from the
    center, nearer or farther, does not move the point. *)
Theorem intersection_scale_invariant (targetPoint : Point) (l : number) :
  0 < l ->
  calculateIntersectionPointWithNodeBoundary node
    (mkPoint (cx + l * (px targetPoint - cx)) (cy + l * (py targetPoint - cy)))
  = calculateIntersectionPointWithNodeBoundary node targetPoint.
Proof.
  intros Hl. rewrite !intersection_closed_form by trivial. fold cx cy. simpl.
  set (dx := px targetPoint - cx). set (dy := py targetPoint - cy).
  replace (cx + l * dx - cx) with (l * dx) by lra.
  replace (cy + l * dy - cy) with (l * dy) by lra.
  unfold boundaryPoint.
  rewrite !number_eqb_scaled by trivial.
  destruct (number_eqb dx 0 && number_eqb dy 0); trivial.
  rewrite rayScale_scaled by lra.
  f_equal; field; lra.
Qed.

(** X16: on a node of positive size, two targets opposite each other
    about the center give two points opposite each other about the
    center. *)
Theorem intersection_opposite (targetPoint : Point) :
  px targetPoint - cx <> 0 \/ py targetPoint - cy <> 0 ->
  let p := calculateIntersectionPointWithNodeBoundary node targetPoint in
  let q := calculateIntersectionPointWithNodeBoundary node
             (mkPoint (cx - (px targetPoint - cx)) (cy - (py targetPoint - cy))) in
  px p + px q = 2 * cx /\ py p + py q = 2 * cy.
Proof.
  intros Hd p q. subst p q.
  rewrite !intersection_closed_form by trivial. fold cx cy. simpl.
  set (dx := px targetPoint - cx) in *. set (dy := py targetPoint - cy) in *.
  replace (cx - dx - cx) with (- dx) by lra.
  replace (cy - dy - cy) with (- dy) by lra.
  assert (Hnz : number_eqb dx 0 && number_eqb dy 0 = false).
  { apply andb_false_iff. destruct Hd as [H | H]; [left | right];
      now apply number_eqb_false. }
  assert (Hnz' : number_eqb (- dx) 0 && number_eqb (- dy) 0 = false).
  { apply andb_false_iff. destruct Hd as [H | H]; [left | right];
      apply number_eqb_false; lra. }
  unfold boundaryPoint. rewrite Hnz, Hnz'. fold cx cy. simpl.
  rewrite rayScale_opposite by (trivial; lra).
  split; lra.
Qed.

End RayProperties.

Section RayWitnesses.

Lemma Sample_A_size : 0 < Node.width Sample.A /\ 0 < Node.height Sample.A.
Proof. simpl. lra. Qed.

Lemma intersection_on_ray_witness :
  exists t,
    0 < t <= 1
    /\ px (calculateIntersectionPointWithNodeBoundary Sample.A
             (nodeCenter Sample.B))
       = 0 + 200 / 2 + t * (300 + 200 / 2 - (0 + 200 / 2)).
Proof.
  destruct (intersection_on_ray Sample.A (proj1 Sample_A_size)
              (proj2 Sample_A_size) (nodeCenter Sample.B))
    as [t [Ht [Hx [_ [Hle _]]]]].
  - left. simpl. lra.
  - exists t. split; [split; [exact Ht|] | exact Hx].
    apply Hle. left. simpl.
    replace (300 + 200 / 2 - (0 + 200 / 2)) with 300 by lra.
    rewrite Rabs_right; lra.
Defined.

Lemma intersection_straight_witness :
  calculateIntersectionPointWithNodeBoundary Sample.A (mkPoint 100 1000)
  = mkPoint (0 + 200 / 2) (0 + 70).
Proof.
  destruct (intersection_straight Sample.A (proj1 Sample_A_size)
              (proj2 Sample_A_size) (mkPoint 100 1000)) as [H _].
  apply H; simpl; lra.
Defined.

Lemma intersection_scale_invariant_witness :
  calculateIntersectionPointWithNodeBoundary Sample.A
    (mkPoint (0 + 200 / 2 + 2 * (400 - (0 + 200 / 2)))
             (0 + 70 / 2 + 2 * (335 - (0 + 70 / 2))))
  = calculateIntersectionPointWithNodeBoundary Sample.A (mkPoint 400 335).
Proof.
  apply (intersection_scale_invariant Sample.A (proj1 Sample_A_size)
           (proj2 Sample_A_size) (mkPoint 400 335) 2).
  lra.
Defined.

Lemma intersection_opposite_witness :
  px (calculateIntersectionPointWithNodeBoundary Sample.A (mkPoint 400 335))
  + px (calculateIntersectionPointWithNodeBoundary Sample.A
          (mkPoint (0 + 200 / 2 - (400 - (0 + 200 / 2)))
                   (0 + 70 / 2 - (335 - (0 + 70 / 2)))))
  = 2 * (0 + 200 / 2).
Proof.
  apply (intersection_opposite Sample.A (proj1 Sample_A_size)
           (proj2 Sample_A_size) (mkPoint 400 335)).
  left. simpl. lra.
Defined.

End RayWitnesses.

(** ** The lines of the edges *)

Section DrawnEdges.

Lemma find_node (ns : list Node.t) (k : string) :
  App.node_exists ns k ->
  exists n, find (fun n => (Node.id n =? k)%string) ns = Some n
            /\ In n ns /\ Node.id n = k.
Proof.
  intros [m [Hm Hk]].
  destruct (find (fun n => (Node.id n =? k)%string) ns) as [n|] eqn:E.
  - exists n. apply find_some in E. destruct E as [Hin Hid].
    apply String.eqb_eq in Hid. auto.
  - apply (find_none _ _ E) in Hm. apply String.eqb_neq in Hm. contradiction.
Qed.

Lemma find_no_node (ns : list Node.t) (k : string) :
  ~ App.node_exists ns k ->
  find (fun n => (Node.id n =? k)%string) ns = None.
Proof.
  intros H. destruct (find _ ns) as [n|] eqn:E; trivial.
  apply find_some in E. destruct E as [Hin Hid].
  apply String.eqb_eq in Hid. destruct H. now exists n.
Qed.

(** X17: in a store where every edge has both ends among the nodes and
    every node is at least 60 by 40, every edge is drawn, from a point on
    the border of a node with the id of its source to a point on the border
    of a node with the id of its target.  An edge of which one end is the
    id of no node is not drawn. *)
Theorem edges_are_clipped (s : App.t) (e : Edge.t) :
  (App.edges_closed s -> App.sizes_ok s -> In e (App.edges s) ->
   exists sourceNode targetNode startPoint endPoint,
     CurrentRealityTree.edgeEndpoints (App.nodes s) e
     = Some (startPoint, endPoint)
     /\ In sourceNode (App.nodes s)
     /\ Node.id sourceNode = Edge.sourceId e
     /\ In targetNode (App.nodes s)
     /\ Node.id targetNode = Edge.targetId e
     /\ in_box sourceNode startPoint /\ on_side sourceNode startPoint
     /\ in_box targetNode endPoint /\ on_side targetNode endPoint)
  /\ (~ App.node_exists (App.nodes s) (Edge.sourceId e)
      \/ ~ App.node_exists (App.nodes s) (Edge.targetId e) ->
      CurrentRealityTree.edgeEndpoints (App.nodes s) e = None).
Proof.
  split.
  - intros Hclosed [_ [_ Hsize]] He.
    destruct (Hclosed e He) as [Hs Ht].
    destruct (find_node _ _ Hs) as [src [Fs [Is Ks]]].
    destruct (find_node _ _ Ht) as [tgt [Ft [It Kt]]].
    exists src, tgt. eexists. eexists.
    unfold CurrentRealityTree.edgeEndpoints. rewrite Fs, Ft.
    split; [reflexivity|].
    destruct (Hsize src Is) as [Hw Hh]. destruct (Hsize tgt It) as [Hw' Hh'].
    unfold MIN_NODE_WIDTH, MIN_NODE_HEIGHT in *.
    destruct (intersection_in_box src (nodeCenter tgt)) as [B1 S1]; try lra.
    destruct (intersection_in_box tgt (nodeCenter src)) as [B2 S2]; try lra.
    repeat (split; trivial).
  - unfold CurrentRealityTree.edgeEndpoints. intros [H | H].
    + now rewrite (find_no_node _ _ H).
    + rewrite (find_no_node _ _ H). now destruct (find _ _).
Qed.

Lemma edges_are_clipped_witness :
  exists startPoint endPoint,
    CurrentRealityTree.edgeEndpoints (App.nodes Sample.store)
      (Edge.mk "id_1" "B" "A") = Some (startPoint, endPoint)
    /\ on_side Sample.B startPoint /\ on_side Sample.A endPoint.
Proof.
  destruct (edges_are_clipped (App.addEdge Sample.store Sample.o1 "B" "A")
              (Edge.mk "id_1" "B" "A")) as [H _].
  destruct H as [src [tgt [p [q [Hd [Is [Ks [It [Kt [_ [Hp [_ Hq]]]]]]]]]]]].
  - apply (exec_edges_closed Sample.store (App.AddEdge Sample.o1 "B" "A")).
    + split; [exists Sample.B | exists Sample.A]; simpl; auto.
    + intros e [].
  - unfold App.sizes_ok, MIN_NODE_WIDTH, MIN_NODE_HEIGHT. simpl.
    unfold NODE_WIDTH, NODE_HEIGHT.
    split; [lra | split; [lra|]].
    intros n [<- | [<- | []]]; simpl; lra.
  - simpl. now left.
  - exists p, q. split; [exact Hd|].
    assert (src = Sample.B)
      by (destruct Is as [<- | [<- | []]]; [discriminate | reflexivity]).
    assert (tgt = Sample.A)
      by (destruct It as [<- | [<- | []]]; [reflexivity | discriminate]).
    subst src tgt. split; assumption.
Defined.

End DrawnEdges.

(** * Further properties of the gestures *)

Section DragAndResize.

Lemma truthy_nonempty (k : string) : k <> ""%string -> truthy (Some k) = true.
Proof.
  intros H. simpl. apply negb_true_iff. now apply String.eqb_neq.
Qed.

Lemma opt_is_same (k : string) : App.opt_is (Some k) k = true.
Proof. simpl. apply String.eqb_refl. Qed.

(** X18: a drag moves the node by what the pointer has moved since it
    went down on the node, so that the node does not jump to the pointer;
    it changes no other node, no size and no edge.  The release ends the
    drag, and pointer moves after it move nothing. *)
Theorem drag_follows_pointer (u : UI.t) (r : Rect) (e1 e2 : MouseEvent)
    (nodeId : string) (node : Node.t) :
  find (fun n => (Node.id n =? nodeId)%string) (App.nodes (UI.app u))
  = Some node ->
  nodeId <> ""%string ->
  let taken := CurrentRealityTree.handleNodeDragStart u (Some r) e1 nodeId in
  let moved := CurrentRealityTree.globalMouseMove taken (Some r) e2 in
  let released := CurrentRealityTree.globalMouseUp moved in
  App.nodes (UI.app moved)
  = App.nodes (App.updateNodePosition (UI.app u) nodeId
                 (Node.x node + (clientX e2 - clientX e1))
                 (Node.y node + (clientY e2 - clientY e1)))
  /\ App.edges (UI.app moved) = App.edges (UI.app u)
  /\ Tree.draggingNode (UI.tree moved) = Some nodeId
  /\ Tree.draggingNode (UI.tree released) = None
  /\ UI.app released = UI.app moved
  /\ CurrentRealityTree.globalMouseMove released (Some r) e2 = released.
Proof.
  intros Hfind Hk taken moved released.
  assert (Ht : truthy (Some nodeId) = true) by now apply truthy_nonempty.
  assert (Htaken : Tree.draggingNode (UI.tree taken) = Some nodeId).
  { unfold taken, CurrentRealityTree.handleNodeDragStart.
    now rewrite Hfind. }
  assert (Hmoved :
            moved
            = UI.onApp (fun s => App.updateNodePosition s nodeId
                                   (clientX e2 - left r
                                    - px (Tree.dragOffset (UI.tree taken)))
                                   (clientY e2 - top r
                                    - py (Tree.dragOffset (UI.tree taken))))
                taken).
  { unfold moved, CurrentRealityTree.globalMouseMove. rewrite Htaken.
    cbv beta iota. rewrite Ht.
    unfold CurrentRealityTree.handleNodeDrag.
    now rewrite Htaken, Ht, opt_is_same. }
  assert (Htm : Tree.draggingNode (UI.tree moved) = Some nodeId)
    by (rewrite Hmoved; exact Htaken).
  assert (Hreleased : released = UI.onTree (Tree.setDraggingNode None) moved).
  { unfold released, CurrentRealityTree.globalMouseUp. rewrite Htm.
    cbv beta iota. rewrite Ht.
    unfold CurrentRealityTree.handleNodeDragEnd.
    now rewrite Htm, opt_is_same. }
  split; [|split; [|split; [|split; [|split]]]].
  - rewrite Hmoved. unfold taken, CurrentRealityTree.handleNodeDragStart.
    rewrite Hfind. simpl.
    replace (clientX e2 - left r - (clientX e1 - left r - Node.x node))
      with (Node.x node + (clientX e2 - clientX e1)) by lra.
    replace (clientY e2 - top r - (clientY e1 - top r - Node.y node))
      with (Node.y node + (clientY e2 - clientY e1)) by lra.
    reflexivity.
  - rewrite Hmoved. unfold taken, CurrentRealityTree.handleNodeDragStart.
    now rewrite Hfind.
  - now rewrite Hmoved.
  - now rewrite Hreleased.
  - now rewrite Hreleased.
  - rewrite Hreleased. reflexivity.
Qed.

Lemma drag_follows_pointer_witness :
  map Node.x
    (App.nodes
       (UI.app (CurrentRealityTree.globalMouseMove
                  (CurrentRealityTree.handleNodeDragStart Sample.ui_E
                     (Some Sample.pane) (mkMouse 15 12) "E")
                  (Some Sample.pane) (mkMouse 115 112))))
  = [10 + (115 - 15)].
Proof.
  destruct (drag_follows_pointer Sample.ui_E Sample.pane (mkMouse 15 12)
              (mkMouse 115 112) "E" Sample.E eq_refl) as [H _].
  - discriminate.
  - rewrite H. reflexivity.
Defined.

Lemma Rmax_twice (m v : number) : Rmax m (Rmax m v) = Rmax m v.
Proof.
  unfold Rmax. destruct (Rle_dec m v); destruct (Rle_dec m _); lra.
Qed.

(** X19: a resize sets the size of the node to its size when the handle
    was taken plus what the pointer has moved since, with the width raised
    to 60 and the height to 40 where they are below; it changes no other
    node, no position and no edge.  The release ends the resize, and
    pointer moves after it resize nothing. *)
Theorem resize_follows_pointer (u : UI.t) (e1 e2 : MouseEvent)
    (node : Node.t) :
  let taken := NodeComponent.handleResizeMouseDown u e1 node in
  let moved := NodeComponent.handleGlobalMouseMove taken e2 node in
  let released := NodeComponent.handleGlobalMouseUp moved node in
  App.nodes (UI.app moved)
  = App.nodes (App.handleUpdateNodeDimensions (UI.app u) (Node.id node)
                 (Node.width node + (clientX e2 - clientX e1))
                 (Node.height node + (clientY e2 - clientY e1)))
  /\ App.edges (UI.app moved) = App.edges (UI.app u)
  /\ Local.isResizing (UI.local moved (Node.id node)) = true
  /\ Local.isResizing (UI.local released (Node.id node)) = false
  /\ UI.app released = UI.app moved
  /\ NodeComponent.handleGlobalMouseMove released e2 node = released.
Proof.
  intros taken moved released.
  assert (Hl : UI.local taken (Node.id node)
               = Local.mk (Local.isEditing (UI.local u (Node.id node)))
                   (Local.editText (UI.local u (Node.id node))) true
                   (Some (Local.mkInfo (clientX e1) (clientY e1)
                            (Node.width node) (Node.height node)))).
  { unfold taken. simpl. now rewrite String.eqb_refl. }
  assert (Hmoved :
            moved
            = UI.onApp
                (fun s => App.handleUpdateNodeDimensions s (Node.id node)
                            (Rmax MIN_NODE_WIDTH
                               (Node.width node + (clientX e2 - clientX e1)))
                            (Rmax MIN_NODE_HEIGHT
                               (Node.height node + (clientY e2 - clientY e1))))
                taken).
  { unfold moved, NodeComponent.handleGlobalMouseMove. now rewrite Hl. }
  assert (Hlm : UI.local moved (Node.id node) = UI.local taken (Node.id node))
    by now rewrite Hmoved.
  assert (Hreleased :
            released
            = UI.onLocal (Node.id node)
                (fun l => Local.mk (Local.isEditing l) (Local.editText l)
                            false None) moved).
  { unfold released, NodeComponent.handleGlobalMouseUp.
    now rewrite Hlm, Hl. }
  split; [|split; [|split; [|split; [|split]]]].
  - rewrite Hmoved. simpl. apply map_ext. intros n.
    destruct (Node.id n =? Node.id node)%string; trivial.
    now rewrite !Rmax_twice.
  - now rewrite Hmoved.
  - now rewrite Hlm, Hl.
  - rewrite Hreleased. simpl. now rewrite String.eqb_refl.
  - now rewrite Hreleased.
  - unfold NodeComponent.handleGlobalMouseMove.
    assert (Hlr : Local.isResizing (UI.local released (Node.id node)) = false)
      by (rewrite Hreleased; simpl; now rewrite String.eqb_refl).
    now rewrite Hlr.
Qed.

End DragAndResize.

(** * Properties of every run of the editor *)

Ltac open_handlers :=
  unfold NodeComponent.onMouseDown, NodeComponent.handleResizeMouseDown,
    NodeComponent.handleGlobalMouseMove, NodeComponent.handleGlobalMouseUp,
    NodeComponent.handleKeyDown_Escape,
    CurrentRealityTree.globalMouseMove, CurrentRealityTree.globalMouseUp,
    CurrentRealityTree.handleNodeDrag, CurrentRealityTree.handleNodeDragEnd,
    CurrentRealityTree.handleNodeDragStart, CurrentRealityTree.handleNodeClick,
    CurrentRealityTree.handleStartConnectFromNode,
    CurrentRealityTree.handlePortMouseDown,
    CurrentRealityTree.handlePortMouseUp,
    CurrentRealityTree.handleMouseMoveInPane,
    CurrentRealityTree.handleMouseUpInPane,
    CurrentRealityTree.handlePaneClick, CurrentRealityTree.handleEdgeClick,
    CurrentRealityTree.handleEdgeDeleteClick,
    CurrentRealityTree.handleKeyDown.

Ltac split_cases :=
  repeat match goal with
    | |- context [match ?x with _ => _ end] => destruct x eqn:?
    end.

Section EditorInvariants.

Lemma exec_selected (s : App.t) (c : App.command) :
  App.selectedNodeId (App.exec s c) = App.selectedNodeId s
  \/ App.selectedNodeId (App.exec s c) = None.
Proof.
  destruct c; simpl; auto.
  - unfold App.deleteNode. destruct (App.opt_is _ _); simpl; auto.
  - unfold App.addEdge. destruct (_ || _); auto.
Qed.

Lemma addEdge_selected (s : App.t) (o : Oracle) (a b : string) :
  App.selectedNodeId (App.addEdge s o a b) = App.selectedNodeId s.
Proof. unfold App.addEdge. now destruct (_ || _). Qed.

Lemma step_one_selection (u : UI.t) (ev : Editor.event) :
  Editor.one_selection u -> Editor.one_selection (Editor.step u ev).
Proof.
  unfold Editor.one_selection. intros H.
  destruct ev; simpl; open_handlers; split_cases; simpl;
    rewrite ?addEdge_selected; auto.
  destruct (exec_selected (UI.app u) c) as [E | E]; rewrite E; auto.
Qed.

Lemma findTarget_not_source (ns : list Node.t) (sourceId k : string)
    (mouseX mouseY : number) :
  CurrentRealityTree.findTarget ns sourceId mouseX mouseY = Some k ->
  sourceId <> k.
Proof.
  intros H. apply findTarget_first in H.
  destruct H as [_ [n [_ [_ [Hk [[Hid _] _]]]]]]. congruence.
Qed.

Lemma hot_of_fields (u u' : UI.t) :
  Tree.potentialTargetNodeId (UI.tree u') = None
  \/ (Tree.pendingEdge (UI.tree u') = Tree.pendingEdge (UI.tree u)
      /\ Tree.potentialTargetNodeId (UI.tree u')
         = Tree.potentialTargetNodeId (UI.tree u)) ->
  Editor.hot_target_ok u -> Editor.hot_target_ok u'.
Proof.
  unfold Editor.hot_target_ok. intros [H | [Hp Hh]] Hok k Hk.
  - congruence.
  - rewrite Hp. apply Hok. congruence.
Qed.

Lemma step_hot_target_ok (u : UI.t) (ev : Editor.event) :
  Editor.hot_target_ok u -> Editor.hot_target_ok (Editor.step u ev).
Proof.
  intros H.
  destruct ev;
    try (revert H; apply hot_of_fields; simpl; open_handlers; split_cases;
         simpl; auto; fail).
  simpl. unfold CurrentRealityTree.handleMouseMoveInPane.
  destruct (Tree.pendingEdge (UI.tree u)) as [p|] eqn:Hp; trivial.
  destruct paneRect as [r|]; trivial.
  intros k Hk. simpl in *. rewrite Hp.
  eexists. split; [reflexivity|]. simpl.
  now apply findTarget_not_source in Hk.
Qed.

(** X20: in every state the editor reaches from its first one, by any
    sequence of gestures, keys and store commands, a node and an edge are
    never selected together, and a hot target is there only while an edge
    is pending and is never the source of that edge. *)
Theorem editor_invariants :
  (forall u ev, Editor.one_selection u ->
                Editor.one_selection (Editor.step u ev))
  /\ (forall u ev, Editor.hot_target_ok u ->
                   Editor.hot_target_ok (Editor.step u ev))
  /\ (forall evs,
        (App.selectedNodeId (UI.app (Editor.steps UI.initial evs)) = None
         \/ Tree.selectedEdgeId (UI.tree (Editor.steps UI.initial evs)) = None)
        /\ forall k,
             Tree.potentialTargetNodeId
               (UI.tree (Editor.steps UI.initial evs)) = Some k ->
             exists p,
               Tree.pendingEdge (UI.tree (Editor.steps UI.initial evs)) = Some p
               /\ PendingEdge.sourceId p <> k).
Proof.
  split; [exact step_one_selection | split; [exact step_hot_target_ok|]].
  assert (H : forall evs u,
             Editor.one_selection u /\ Editor.hot_target_ok u ->
             Editor.one_selection (Editor.steps u evs)
             /\ Editor.hot_target_ok (Editor.steps u evs)).
  { induction evs as [|ev evs IH]; simpl; intros u [H1 H2]; [auto|].
    apply IH. split; [now apply step_one_selection
                     | now apply step_hot_target_ok]. }
  intros evs. apply (H evs UI.initial).
  split; [now left | intros k Hk; discriminate].
Qed.

Lemma editor_invariants_witness :
  Editor.hot_target_ok
    (Editor.step Sample.connecting_from_B
       (Editor.PaneMove (Some Sample.pane) (mkMouse 100 5))).
Proof.
  apply (proj1 (proj2 editor_invariants)).
  intros k Hk. discriminate.
Defined.

End EditorInvariants.

Section GesturesAndStore.

Lemma addEdge_default (s : App.t) (o : Oracle) (a b : string) :
  App.defaultNodeSize (App.addEdge s o a b) = App.defaultNodeSize s.
Proof. unfold App.addEdge. now destruct (_ || _). Qed.

Lemma addEdge_edges_cases (s : App.t) (o : Oracle) (a b : string) :
  App.edges (App.addEdge s o a b) = App.edges s
  \/ (a <> b
      /\ App.edges (App.addEdge s o a b)
         = App.edges s ++ [Edge.mk (generateId o) a b]).
Proof.
  unfold App.addEdge. destruct (a =? b)%string eqn:E; simpl; auto.
  destruct (App.has_edge _ _ _); auto.
  right. split; [now apply String.eqb_neq | reflexivity].
Qed.

Lemma gesture_node_ids (u : UI.t) (ev : Editor.event) :
  Editor.gesture ev ->
  map Node.id (App.nodes (UI.app (Editor.step u ev)))
  = map Node.id (App.nodes (UI.app u)).
Proof.
  intros Hg.
  destruct ev; try contradiction; simpl; open_handlers; split_cases; simpl;
    rewrite ?addEdge_nodes; trivial;
    apply map_id_map; intros n; now destruct (Node.id n =? _)%string.
Qed.

Lemma gesture_default (u : UI.t) (ev : Editor.event) :
  Editor.gesture ev ->
  App.defaultNodeSize (UI.app (Editor.step u ev))
  = App.defaultNodeSize (UI.app u).
Proof.
  intros Hg.
  destruct ev; try contradiction; simpl; open_handlers; split_cases; simpl;
    rewrite ?addEdge_default; trivial.
Qed.

Lemma gesture_edges (u : UI.t) (ev : Editor.event) :
  Editor.gesture ev ->
  App.edges (UI.app (Editor.step u ev)) = App.edges (UI.app u)
  \/ exists o p k,
       Tree.pendingEdge (UI.tree u) = Some p
       /\ PendingEdge.sourceId p <> k
       /\ App.edges (UI.app (Editor.step u ev))
          = App.edges (UI.app u)
            ++ [Edge.mk (generateId o) (PendingEdge.sourceId p) k].
Proof.
  intros Hg.
  destruct ev; try contradiction; simpl; open_handlers; split_cases; simpl;
    auto;
    match goal with
    | |- context [App.addEdge ?s ?o ?a ?b] =>
        destruct (addEdge_edges_cases s o a b) as [E | [Hab E]];
        [left; exact E | right; eexists o, _, b; eauto]
    end.
Qed.

(** X21: no gesture and no key adds, removes, renames or reorders a node,
    removes an edge or changes the default size.  A gesture changes the
    edge list in one way only: while an edge is pending it may append one
    edge, which goes from the source of the pending edge to another
    node. *)
Theorem gestures_and_the_store (u : UI.t) (ev : Editor.event) :
  Editor.gesture ev ->
  map Node.id (App.nodes (UI.app (Editor.step u ev)))
  = map Node.id (App.nodes (UI.app u))
  /\ App.defaultNodeSize (UI.app (Editor.step u ev))
     = App.defaultNodeSize (UI.app u)
  /\ (App.edges (UI.app (Editor.step u ev)) = App.edges (UI.app u)
      \/ exists o p k,
           Tree.pendingEdge (UI.tree u) = Some p
           /\ PendingEdge.sourceId p <> k
           /\ App.edges (UI.app (Editor.step u ev))
              = App.edges (UI.app u)
                ++ [Edge.mk (generateId o) (PendingEdge.sourceId p) k]).
Proof.
  intros Hg. split; [now apply gesture_node_ids|].
  split; [now apply gesture_default | now apply gesture_edges].
Qed.

Lemma gestures_and_the_store_witness :
  map Node.id
    (App.nodes (UI.app (Editor.step Sample.dragging_A
                          (Editor.DragMove (Some Sample.pane)
                             (mkMouse 115 112)))))
  = ["A"; "B"]%string.
Proof.
  destruct (gestures_and_the_store Sample.dragging_A
              (Editor.DragMove (Some Sample.pane) (mkMouse 115 112)) I)
    as [H _].
  rewrite H. reflexivity.
Defined.

(** X22: the two ways of connecting.  A press on the source port of a
    node, a pointer move that makes another node the hot target and the
    release on the target port of that node call [addEdge] from the first
    node to the second and end the gesture; the release on the target port
    of a third node ends the gesture without an edge.  After 'start
    connect' on a node of the diagram, the press on the target port of
    another node calls [addEdge] from the first to the second, wherever the
    pointer has been. *)
Theorem connect_gestures (u : UI.t) (o o' : Oracle) (r : Rect)
    (e1 e2 e3 : MouseEvent) (a k : string) :
  let pending := CurrentRealityTree.handlePortMouseDown u o (Some r) e1 a
                   source in
  let moved := CurrentRealityTree.handleMouseMoveInPane pending (Some r) e2 in
  (Tree.potentialTargetNodeId (UI.tree moved) = Some k ->
   UI.app (CurrentRealityTree.handlePortMouseUp moved o' k target)
   = App.addEdge (App.setSelectedNodeId (Some a) (UI.app u)) o' a k
   /\ Tree.pendingEdge
        (UI.tree (CurrentRealityTree.handlePortMouseUp moved o' k target))
      = None)
  /\ (forall k', k' <> a ->
        Tree.potentialTargetNodeId (UI.tree moved) <> Some k' ->
        UI.app (CurrentRealityTree.handlePortMouseUp moved o' k' target)
        = App.setSelectedNodeId (Some a) (UI.app u)
        /\ Tree.pendingEdge
             (UI.tree (CurrentRealityTree.handlePortMouseUp moved o' k' target))
           = None)
  /\ (App.node_exists (App.nodes (UI.app u)) a -> a <> k ->
      UI.app (CurrentRealityTree.handlePortMouseDown
                (CurrentRealityTree.handleStartConnectFromNode u a)
                o' (Some r) e3 k target)
      = App.addEdge (App.setSelectedNodeId (Some a) (UI.app u)) o' a k).
Proof.
  intros pending moved.
  assert (Hp : Tree.pendingEdge (UI.tree moved)
               = Some (PendingEdge.mk a (clientX e1 - left r)
                         (clientY e1 - top r) (clientX e2 - left r)
                         (clientY e2 - top r))) by reflexivity.
  assert (Ha : UI.app moved = App.setSelectedNodeId (Some a) (UI.app u))
    by reflexivity.
  split; [|split].
  - intros Hhot.
    assert (Hak : a <> k).
    { unfold moved, CurrentRealityTree.handleMouseMoveInPane in Hhot.
      simpl in Hhot. now apply findTarget_not_source in Hhot. }
    unfold CurrentRealityTree.handlePortMouseUp. rewrite Hp, Hhot.
    cbv beta iota. simpl PendingEdge.sourceId.
    rewrite (proj2 (String.eqb_neq a k) Hak), opt_is_same.
    cbn [negb]. unfold CurrentRealityTree.clearPending.
    cbn [UI.app UI.tree UI.onTree UI.onApp Tree.pendingEdge
         Tree.setPendingEdge Tree.setPotentialTargetNodeId].
    now rewrite Ha.
  - intros k' Hk' Hcold.
    unfold CurrentRealityTree.handlePortMouseUp. rewrite Hp.
    cbv beta iota. simpl PendingEdge.sourceId.
    rewrite (proj2 (String.eqb_neq a k')) by congruence.
    destruct (App.opt_is _ k') eqn:E.
    + apply opt_is_true in E. contradiction.
    + cbn [negb]. unfold CurrentRealityTree.clearPending.
      cbn [UI.app UI.tree UI.onTree UI.onApp Tree.pendingEdge
           Tree.setPendingEdge Tree.setPotentialTargetNodeId].
      now rewrite Ha.
  - intros Hex Hak. destruct (find_node _ _ Hex) as [n [Hf _]].
    unfold CurrentRealityTree.handleStartConnectFromNode. rewrite Hf.
    unfold CurrentRealityTree.handlePortMouseDown. simpl.
    now rewrite (proj2 (String.eqb_neq a k) Hak).
Qed.

Lemma connect_gestures_witness :
  App.edges
    (UI.app (CurrentRealityTree.handlePortMouseDown
               (CurrentRealityTree.handleStartConnectFromNode Sample.ui "B")
               Sample.o2 (Some Sample.pane) (mkMouse 100 0) "A" target))
  = [Edge.mk "id_2" "B" "A"].
Proof.
  destruct (connect_gestures Sample.ui Sample.o1 Sample.o2 Sample.pane
              (mkMouse 400 370) (mkMouse 100 5) (mkMouse 100 0) "B" "A")
    as [_ [_ H]].
  rewrite H; [reflexivity | exists Sample.B; simpl; auto | discriminate].
Defined.

End GesturesAndStore.

(** * The panel and the exported file *)

Section Shell.

(** X23: whether the panel of suggestions is shown depends on the API key
    and on the user having closed the panel, and on nothing else: the
    analysis running, an error and the number of suggestions make no
    difference. *)
Theorem panel_visibility (apiKey aiPanelUserHidden isAnalyzing : bool)
    (aiError : option string) (count : nat) :
  AppShell.shouldShowAiPanel apiKey aiPanelUserHidden isAnalyzing aiError count
  = apiKey && negb aiPanelUserHidden.
Proof.
  unfold AppShell.shouldShowAiPanel.
  destruct apiKey, aiPanelUserHidden, isAnalyzing, (truthy aiError), count;
    reflexivity.
Qed.

Lemma endsWith_refl (s : string) : AppShell.endsWith s s = true.
Proof. destruct s; cbn [AppShell.endsWith]; now rewrite String.eqb_refl. Qed.

Lemma endsWith_append (s suffix : string) :
  AppShell.endsWith (s ++ suffix) suffix = true.
Proof.
  induction s as [|c s IH]; cbn [AppShell.endsWith append].
  - apply endsWith_refl.
  - destruct (String c (s ++ suffix) =? suffix)%string; trivial.
Qed.

Lemma endsWith_split (s suffix : string) :
  AppShell.endsWith s suffix = true ->
  exists front, s = (front ++ suffix)%string.
Proof.
  induction s as [|c s IH]; cbn [AppShell.endsWith].
  - destruct (""  =? suffix)%string eqn:E; [|discriminate].
    apply String.eqb_eq in E. exists ""%string. now subst.
  - destruct (String c s =? suffix)%string eqn:E.
    + apply String.eqb_eq in E. exists ""%string. now subst.
    + intros H. destruct (IH H) as [front ->].
      now exists (String c front).
Qed.

(** X24: the name that [handleConfirmDownloadPdf] passes to [pdf.save]
    always ends in '.pdf': a name that ends in '.pdf' is kept as it is, and
    any other name gets '.pdf' appended; the stem is never changed, and
    doing it twice changes nothing more. *)
Theorem saved_filename (filename : string) :
  AppShell.endsWith (AppShell.savedFilename filename) ".pdf" = true
  /\ (exists stem, AppShell.savedFilename filename = (stem ++ ".pdf")%string)
  /\ (AppShell.savedFilename filename = filename
      \/ AppShell.savedFilename filename = (filename ++ ".pdf")%string)
  /\ (forall stem, filename = (stem ++ ".pdf")%string ->
        AppShell.savedFilename filename = filename)
  /\ AppShell.savedFilename (AppShell.savedFilename filename)
     = AppShell.savedFilename filename.
Proof.
  assert (H1 : AppShell.endsWith (AppShell.savedFilename filename) ".pdf"
               = true).
  { unfold AppShell.savedFilename.
    destruct (AppShell.endsWith filename ".pdf") eqn:E; trivial.
    apply endsWith_append. }
  split; [exact H1|]. split; [now apply endsWith_split|].
  split; [|split].
  - unfold AppShell.savedFilename.
    destruct (AppShell.endsWith filename ".pdf"); auto.
  - intros stem ->. unfold AppShell.savedFilename.
    now rewrite endsWith_append.
  - unfold AppShell.savedFilename at 1. now rewrite H1.
Qed.

Lemma saved_filename_witness :
  AppShell.savedFilename "arvore.pdf" = "arvore.pdf"%string.
Proof.
  destruct (saved_filename "arvore.pdf") as [_ [_ [_ [H _]]]].
  now apply (H "arvore"%string).
Defined.

Example saved_filename_examples :
  AppShell.savedFilename "arvore" = "arvore.pdf"%string
  /\ AppShell.savedFilename "arvore.pdf" = "arvore.pdf"%string
  /\ AppShell.savedFilename "" = ".pdf"%string
  /\ AppShell.savedFilename "arvore.PDF" = "arvore.PDF.pdf"%string.
Proof. repeat split. Qed.

End Shell.
